(** * FairJS: provably fair value derivation

    A shallow embedding of [src/fair.js] and of the JavaScript run-time
    operations it calls, followed by the properties of the derivation
    pipeline: seed combination, digest, byte extraction, and the integer,
    float, boolean and weighted projections. *)

From Stdlib Require Import ZArith List String Ascii Bool Lia SpecFloat.
Import ListNotations.

Local Open Scope Z_scope.

(* ================================================================== *)
(** * The JavaScript run-time the library relies on *)
(* ================================================================== *)

(** Numbers, strings, typed arrays and the built-in functions that
    [src/fair.js] calls, following ECMAScript as Node.js implements it. *)

Module JS.

(** ** Numbers

    A JavaScript Number is an IEEE 754 binary64 value.  Every finite
    binary64 value is an integer multiple of the smallest subnormal,
    [2^-1074]; [Fin u] stands for the value [u * 2^-1074].  A value is a
    Number when [u] has at most 53 significant bits and stays below
    [2^1024]; every operation below rounds its exact result back into that
    set (to nearest, ties to even).  The two zeros are identified: no
    operation used by the library tells them apart. *)

Inductive number : Type :=
| NaN
| Infinity (negative : bool)
| Fin (u : Z).

(** Number of [2^-1074] units in the value 1. *)
Definition U : Z := 2 ^ 1074.

(** First magnitude, in units, that no longer is finite: [2^1024]. *)
Definition HUGE : Z := 2 ^ 2098.

Definition of_Z (z : Z) : number := Fin (z * U).

(** [0.5] *)
Definition half : number := Fin (2 ^ 1073).

(** Nearest integer to [a / b], ties to even ([0 <= a], [0 < b]). *)
Definition rne (a b : Z) : Z :=
  let (q, r) := Z.div_eucl a b in
  match (2 * r ?= b) with
  | Lt => q
  | Gt => q + 1
  | Eq => if Z.even q then q else q + 1
  end.

(** The binary64 value nearest to [a / b] units, for [0 <= a], [0 < b]:
    keep 53 significant bits, overflow to infinity. *)
Definition round_pos (a b : Z) : number :=
  let s := Z.max 0 (Z.log2 (a / b) - 52) in
  let u := rne a (b * 2 ^ s) * 2 ^ s in
  if u <? HUGE then Fin u else Infinity false.

Definition neg (x : number) : number :=
  match x with
  | NaN => NaN
  | Infinity s => Infinity (negb s)
  | Fin u => Fin (- u)
  end.

Definition round_ratio (a b : Z) : number :=
  if a <? 0 then neg (round_pos (- a) b) else round_pos a b.

(** [x + y] *)
Definition add (x y : number) : number :=
  match x, y with
  | NaN, _ | _, NaN => NaN
  | Infinity a, Infinity b => if Bool.eqb a b then Infinity a else NaN
  | Infinity a, Fin _ => Infinity a
  | Fin _, Infinity b => Infinity b
  | Fin a, Fin b => round_ratio (a + b) 1
  end.

(** [x - y] *)
Definition sub (x y : number) : number := add x (neg y).

(** [x / y] *)
Definition div (x y : number) : number :=
  match x, y with
  | NaN, _ | _, NaN => NaN
  | Infinity _, Infinity _ => NaN
  | Infinity a, Fin b => Infinity (xorb a (b <? 0))
  | Fin _, Infinity _ => Fin 0
  | Fin a, Fin b =>
      if b =? 0 then (if a =? 0 then NaN else Infinity (a <? 0))
      else round_ratio (a * U * Z.sgn b) (Z.abs b)
  end.

(** [x % y]: the remainder takes the sign of the dividend and is exact. *)
Definition rem (x y : number) : number :=
  match x, y with
  | Fin a, Fin b => if b =? 0 then NaN else Fin (Z.rem a b)
  | Fin a, Infinity _ => Fin a
  | _, _ => NaN
  end.

(** [x < y] *)
Definition lt (x y : number) : bool :=
  match x, y with
  | Fin a, Fin b => a <? b
  | Infinity true, Fin _ => true
  | Fin _, Infinity false => true
  | Infinity true, Infinity false => true
  | _, _ => false
  end.

(** [x <= y] *)
Definition le (x y : number) : bool :=
  match x, y with
  | Fin a, Fin b => a <=? b
  | Infinity true, Fin _ => true
  | Fin _, Infinity false => true
  | Infinity a, Infinity b => a || negb b
  | _, _ => false
  end.

(** Is [x] the finite value of [u] units? *)
Definition is_fin (x : number) (u : Z) : bool :=
  match x with
  | Fin v => v =? u
  | _ => false
  end.

(** Is [x] really a Number: a finite [x] is one when rounding leaves it
    as it is. *)
Definition is_number (x : number) : bool :=
  match x with
  | Fin u => is_fin (round_ratio u 1) u
  | _ => true
  end.

(** The same value in the Standard Library's specification of IEEE 754
    arithmetic, at precision 53 and maximal exponent 1024. *)
Definition to_spec (x : number) : spec_float :=
  match x with
  | NaN => S754_nan
  | Infinity s => S754_infinity s
  | Fin u =>
      if u =? 0 then S754_zero false else
      let s := Z.max 0 (Z.log2 (Z.abs u) - 52) in
      S754_finite (u <? 0) (Z.to_pos (Z.abs u / 2 ^ s)) (s - 1074)
  end.

(** ToIntegerOrInfinity, for the finite case; [None] stands for an
    infinite result. *)
Definition to_integer (x : number) : option Z :=
  match x with
  | NaN => Some 0
  | Infinity _ => None
  | Fin u => Some (Z.quot u U)
  end.

(** Conversion on a store into a [Uint8Array]: truncate, then wrap
    modulo 256; [NaN] and the infinities become 0. *)
Definition to_uint8 (x : number) : Z :=
  match x with
  | Fin u => (Z.quot u U) mod 256
  | _ => 0
  end.

(** ** Abrupt completion

    The only exception the library's code paths can raise is the
    [RangeError] of [Number.prototype.toFixed]. *)

Inductive error : Type := RangeError.

Inductive completion (A : Type) : Type :=
| Normal (a : A)
| Throw (e : error).

Arguments Normal {A} a.
Arguments Throw {A} e.

Definition bind {A B : Type} (c : completion A) (k : A -> completion B)
  : completion B :=
  match c with
  | Normal a => k a
  | Throw e => Throw e
  end.

(** ** Strings

    A string is its sequence of code units; the embedding covers the code
    units below 256. *)

Local Open Scope string_scope.
Local Open Scope Z_scope.

Definition code (c : ascii) : Z := Z.of_N (N_of_ascii c).

(** White space and line terminators skipped by [parseInt] and
    [parseFloat]: TAB, LF, VT, FF, CR, SP and NBSP. *)
Definition is_white_space (c : ascii) : bool :=
  let n := code c in
  ((9 <=? n) && (n <=? 13)) || (n =? 32) || (n =? 160).

Fixpoint trim_start (s : string) : string :=
  match s with
  | String c r => if is_white_space c then trim_start r else s
  | EmptyString => s
  end.

(** An optional leading sign; the flag tells whether it was a minus. *)
Definition strip_sign (s : string) : bool * string :=
  match s with
  | String c r =>
      if (c =? "-")%char then (true, r)
      else if (c =? "+")%char then (false, r)
      else (false, s)
  | EmptyString => (false, s)
  end.

(** Value of a character as a digit, in the largest radix (36). *)
Definition digit_value (c : ascii) : option Z :=
  let n := code c in
  if (48 <=? n) && (n <=? 57) then Some (n - 48)
  else if (97 <=? n) && (n <=? 122) then Some (n - 87)
  else if (65 <=? n) && (n <=? 90) then Some (n - 55)
  else None.

Definition digit_of (R : Z) (c : ascii) : option Z :=
  match digit_value c with
  | Some d => if d <? R then Some d else None
  | None => None
  end.

(** Longest prefix of radix-[R] digits, and what follows it. *)
Fixpoint take_digits (R : Z) (s : string) : list Z * string :=
  match s with
  | EmptyString => ([], EmptyString)
  | String c r =>
      match digit_of R c with
      | Some d => let (ds, rest) := take_digits R r in (d :: ds, rest)
      | None => ([], s)
      end
  end.

Definition digits_value (R : Z) (ds : list Z) : Z :=
  fold_left (fun a d => a * R + d) ds 0.

(** The first [n] code units, and what is left without them. *)
Fixpoint take (n : nat) (s : string) : string :=
  match n, s with
  | S k, String c r => String c (take k r)
  | _, _ => ""
  end.

Fixpoint drop (n : nat) (s : string) : string :=
  match n, s with
  | S k, String _ r => drop k r
  | _, _ => s
  end.

Definition strlen (s : string) : Z := Z.of_nat (String.length s).

(** [s.slice(from, to)]: a negative index counts from the end, and both
    are clamped to the string. *)
Definition slice (s : string) (from to : Z) : string :=
  let len := strlen s in
  let a := if from <? 0 then Z.max (len + from) 0 else Z.min from len in
  let b := if to <? 0 then Z.max (len + to) 0 else Z.min to len in
  take (Z.to_nat (b - a)) (drop (Z.to_nat a) s).

(** [s.substr(start, count)] *)
Definition substr (s : string) (start count : Z) : string :=
  let len := strlen s in
  let a := if start <? 0 then Z.max (len + start) 0 else Z.min start len in
  take (Z.to_nat (Z.min count (len - a))) (drop (Z.to_nat a) s).

(** [parseInt(s, radix)]: skip white space, read a sign, drop a [0x]
    prefix when the radix is 16, read the longest prefix of digits; no digit
    gives [NaN], and whatever follows the digits is ignored. *)
Definition parseInt (s : string) (radix : Z) : number :=
  let (minus, s1) := strip_sign (trim_start s) in
  if (radix =? 0) || ((2 <=? radix) && (radix <=? 36)) then
    let R := if radix =? 0 then 10 else radix in
    let s2 :=
      if (radix =? 0) || (radix =? 16) then
        match s1 with
        | String c (String x r) =>
            if ((c =? "0") && ((x =? "x") || (x =? "X")))%char then r else s1
        | _ => s1
        end
      else s1 in
    match fst (take_digits R s2) with
    | [] => NaN
    | ds => round_ratio ((if minus then -1 else 1) * digits_value R ds * U) 1
    end
  else NaN.

(** The exponent part of a decimal literal: [e] or [E], an optional sign,
    at least one digit.  Anything else is not part of the literal. *)
Definition exponent_part (s : string) : Z :=
  match s with
  | String c r =>
      if (code c =? 101) || (code c =? 69) then
        let (minus, r1) := strip_sign r in
        match fst (take_digits 10 r1) with
        | [] => 0
        | ds => (if minus then -1 else 1) * digits_value 10 ds
        end
      else 0
  | EmptyString => 0
  end.

(** [parseFloat(s)]: the Number nearest to the longest prefix of [s] (after
    white space) that is a decimal literal; [NaN] when there is none.  The
    literal is rounded exactly, however many digits it has, as Node.js
    does. *)
Definition parseFloat (s : string) : number :=
  let (minus, s1) := strip_sign (trim_start s) in
  if prefix "Infinity" s1 then Infinity minus else
  let (ip, s2) := take_digits 10 s1 in
  let (fp, s3) :=
    match s2 with
    | String c r => if (c =? ".")%char then take_digits 10 r else ([], s2)
    | EmptyString => ([], s2)
    end in
  match (ip ++ fp)%list with
  | [] => NaN
  | ds =>
      let e := exponent_part s3 - Z.of_nat (List.length fp) in
      let x := round_ratio (digits_value 10 ds * U * 10 ^ Z.max 0 e)
                           (10 ^ Z.max 0 (- e)) in
      if minus then neg x else x
  end.

(** ** Decimal digits *)

Definition digit_char (d : Z) : ascii := ascii_of_N (Z.to_N (48 + d)).

Fixpoint decimal_loop (fuel : nat) (n : Z) (acc : string) : string :=
  match fuel with
  | O => acc
  | S f =>
      let acc' := String (digit_char (n mod 10)) acc in
      if n <? 10 then acc' else decimal_loop f (n / 10) acc'
  end.

(** The decimal digits of a non-negative integer, most significant
    first, without leading zeros. *)
Definition decimal (n : Z) : string :=
  decimal_loop (S (Z.to_nat (Z.log2 n))) n "".

Fixpoint zeros (n : nat) : string :=
  match n with
  | O => ""
  | S k => String "0" (zeros k)
  end.

(** ** Number to string

    [Number::toString] writes the shortest digit string [s] (with [k]
    digits) and the decimal position [n] such that [s * 10^(n-k)] reads
    back as the same Number, then lays it out plainly or with an
    exponent. *)

(** The position [n] with [10^(n-1) <= u / U < 10^n], for [0 < u], is
    found by stepping the power of ten: upwards from 1 when [1 <= u / U],
    downwards from 0 otherwise.  [position_up] is entered with
    [b = 10^n * U], [position_down] with [a = u * 10^(-n)]. *)
Fixpoint position_up (fuel : nat) (a b n : Z) : Z :=
  match fuel with
  | O => n
  | S f => if a <? b then n else position_up f a (10 * b) (n + 1)
  end.

Fixpoint position_down (fuel : nat) (a b n : Z) : Z :=
  match fuel with
  | O => n
  | S f => if b <=? 10 * a then n else position_down f (10 * a) b (n - 1)
  end.

Definition position (u : Z) : Z :=
  if U <=? u then position_up 400 u (10 * U) 1 else position_down 400 u U 0.

(** Does [s * 10^(n-k)] read back as [Fin u]? *)
Definition reads_back (u n k s : Z) : bool :=
  is_fin (round_ratio (s * U * 10 ^ Z.max 0 (n - k)) (10 ^ Z.max 0 (k - n))) u.

(** The [k]-digit candidate for [u], if there is one: of the two
    [k]-digit decimals around [u] that read back, the closer one. *)
Definition digits_at (u n k : Z) : option Z :=
  let A := u * 10 ^ Z.max 0 (k - n) in
  let B := U * 10 ^ Z.max 0 (n - k) in
  let lo := A / B in
  match reads_back u n k lo, reads_back u n k (lo + 1) with
  | true, true =>
      match 2 * (A mod B) ?= B with
      | Lt => Some lo
      | Gt => Some (lo + 1)
      | Eq => Some (if Z.even lo then lo else lo + 1)
      end
  | true, false => Some lo
  | false, true => Some (lo + 1)
  | false, false => None
  end.

(** Smallest [k], from [k] on, that has a candidate. Seventeen digits
    always suffice. *)
Fixpoint shortest_digits (fuel : nat) (u n k : Z) : Z * Z :=
  match fuel with
  | O => (k, u * 10 ^ Z.max 0 (k - n) / (U * 10 ^ Z.max 0 (n - k)))
  | S f =>
      match digits_at u n k with
      | Some s => (k, s)
      | None => shortest_digits f u n (k + 1)
      end
  end.

Definition layout (n k s : Z) : string :=
  let ds := decimal s in
  if (k <=? n) && (n <=? 21) then ds ++ zeros (Z.to_nat (n - k))
  else if (0 <? n) && (n <=? 21) then
    take (Z.to_nat n) ds ++ "." ++ drop (Z.to_nat n) ds
  else if (-6 <? n) && (n <=? 0) then "0." ++ zeros (Z.to_nat (- n)) ++ ds
  else
    let e := n - 1 in
    let es := (if e <? 0 then "-" else "+") ++ decimal (Z.abs e) in
    if k =? 1 then ds ++ "e" ++ es
    else take 1 ds ++ "." ++ drop 1 ds ++ "e" ++ es.

Definition number_to_string (x : number) : string :=
  match x with
  | NaN => "NaN"
  | Infinity minus => (if minus then "-" else "") ++ "Infinity"
  | Fin u =>
      if u =? 0 then "0" else
      let a := Z.abs u in
      let n := position a in
      let (k, s) := shortest_digits 17 a n 1 in
      (if u <? 0 then "-" else "") ++
      (if s =? 10 ^ k then layout (n + 1) k (10 ^ (k - 1)) else layout n k s)
  end.

(** [x.toFixed(fractionDigits)]: [fractionDigits] outside [0..100] raises
    [RangeError]; otherwise the integer [n] nearest to [x * 10^f] (the
    larger one on a tie) is written with [f] digits after the point. *)
Definition toFixed (x fractionDigits : number) : completion string :=
  match to_integer fractionDigits with
  | None => Throw RangeError
  | Some f =>
      if (f <? 0) || (100 <? f) then Throw RangeError else
      match x with
      | Fin u =>
          let a := Z.abs u in
          if 10 ^ 21 * U <=? a then Normal (number_to_string x) else
          let n := (2 * a * 10 ^ f + U) / (2 * U) in
          let m := decimal n in
          let m :=
            if f =? 0 then m else
            let m := zeros (Z.to_nat (f + 1 - strlen m)) ++ m in
            let k := strlen m in
            take (Z.to_nat (k - f)) m ++ "." ++ drop (Z.to_nat (k - f)) m in
          Normal ((if u <? 0 then "-" else "") ++ m)
      | _ => Normal (number_to_string x)
      end
  end.

(** ** Typed arrays

    A [Uint8Array] is the list of its elements, each in [0..255].  A store
    outside the array is ignored. *)

Definition Uint8Array_new (n : Z) : list Z := repeat 0 (Z.to_nat n).

Fixpoint store_at (i : nat) (v : Z) (l : list Z) : list Z :=
  match l, i with
  | [], _ => []
  | _ :: t, O => v :: t
  | h :: t, S j => h :: store_at j v t
  end.

Definition store (bytes : list Z) (i : Z) (x : number) : list Z :=
  if i <? 0 then bytes else store_at (Z.to_nat i) (to_uint8 x) bytes.

(** [bytes.join(sep)] *)
Fixpoint join (bytes : list Z) (sep : string) : string :=
  match bytes with
  | [] => ""
  | [b] => decimal b
  | b :: t => decimal b ++ sep ++ join t sep
  end.

End JS.

(* ================================================================== *)
(** * The digest: [crypto.createHash('sha512')] *)
(* ================================================================== *)

(** SHA-512 as in FIPS 180-4, on 64-bit words kept in [Z] with the
    wrap-around written out.  The library hashes the UTF-8 encoding of the
    string and reads the digest as lowercase hexadecimal. *)

Module Crypto.

Import JS.
Local Open Scope string_scope.
Local Open Scope Z_scope.

Definition w64 (x : Z) : Z := x mod 2 ^ 64.

Definition rotr (n x : Z) : Z :=
  Z.lor (Z.shiftr x n) (w64 (Z.shiftl x (64 - n))).

Definition Ch (x y z : Z) : Z := Z.lxor (Z.land x y) (Z.ldiff z x).

Definition Maj (x y z : Z) : Z :=
  Z.lxor (Z.lxor (Z.land x y) (Z.land x z)) (Z.land y z).

Definition Sigma0 (x : Z) : Z :=
  Z.lxor (Z.lxor (rotr 28 x) (rotr 34 x)) (rotr 39 x).

Definition Sigma1 (x : Z) : Z :=
  Z.lxor (Z.lxor (rotr 14 x) (rotr 18 x)) (rotr 41 x).

Definition sigma0 (x : Z) : Z :=
  Z.lxor (Z.lxor (rotr 1 x) (rotr 8 x)) (Z.shiftr x 7).

Definition sigma1 (x : Z) : Z :=
  Z.lxor (Z.lxor (rotr 19 x) (rotr 61 x)) (Z.shiftr x 6).

Definition K : list Z :=
  [
    0x428a2f98d728ae22; 0x7137449123ef65cd; 0xb5c0fbcfec4d3b2f; 0xe9b5dba58189dbbc;
    0x3956c25bf348b538; 0x59f111f1b605d019; 0x923f82a4af194f9b; 0xab1c5ed5da6d8118;
    0xd807aa98a3030242; 0x12835b0145706fbe; 0x243185be4ee4b28c; 0x550c7dc3d5ffb4e2;
    0x72be5d74f27b896f; 0x80deb1fe3b1696b1; 0x9bdc06a725c71235; 0xc19bf174cf692694;
    0xe49b69c19ef14ad2; 0xefbe4786384f25e3; 0x0fc19dc68b8cd5b5; 0x240ca1cc77ac9c65;
    0x2de92c6f592b0275; 0x4a7484aa6ea6e483; 0x5cb0a9dcbd41fbd4; 0x76f988da831153b5;
    0x983e5152ee66dfab; 0xa831c66d2db43210; 0xb00327c898fb213f; 0xbf597fc7beef0ee4;
    0xc6e00bf33da88fc2; 0xd5a79147930aa725; 0x06ca6351e003826f; 0x142929670a0e6e70;
    0x27b70a8546d22ffc; 0x2e1b21385c26c926; 0x4d2c6dfc5ac42aed; 0x53380d139d95b3df;
    0x650a73548baf63de; 0x766a0abb3c77b2a8; 0x81c2c92e47edaee6; 0x92722c851482353b;
    0xa2bfe8a14cf10364; 0xa81a664bbc423001; 0xc24b8b70d0f89791; 0xc76c51a30654be30;
    0xd192e819d6ef5218; 0xd69906245565a910; 0xf40e35855771202a; 0x106aa07032bbd1b8;
    0x19a4c116b8d2d0c8; 0x1e376c085141ab53; 0x2748774cdf8eeb99; 0x34b0bcb5e19b48a8;
    0x391c0cb3c5c95a63; 0x4ed8aa4ae3418acb; 0x5b9cca4f7763e373; 0x682e6ff3d6b2b8a3;
    0x748f82ee5defb2fc; 0x78a5636f43172f60; 0x84c87814a1f0ab72; 0x8cc702081a6439ec;
    0x90befffa23631e28; 0xa4506cebde82bde9; 0xbef9a3f7b2c67915; 0xc67178f2e372532b;
    0xca273eceea26619c; 0xd186b8c721c0c207; 0xeada7dd6cde0eb1e; 0xf57d4f7fee6ed178;
    0x06f067aa72176fba; 0x0a637dc5a2c898a6; 0x113f9804bef90dae; 0x1b710b35131c471b;
    0x28db77f523047d84; 0x32caab7b40c72493; 0x3c9ebe0a15c9bebc; 0x431d67c49c100d4c;
    0x4cc5d4becb3e42b6; 0x597f299cfc657e2a; 0x5fcb6fab3ad6faec; 0x6c44198c4a475817 ].

(** The eight chaining words. *)
Record hash : Type := mkHash
  { h0 : Z; h1 : Z; h2 : Z; h3 : Z; h4 : Z; h5 : Z; h6 : Z; h7 : Z }.

Definition H0 : hash :=
  mkHash 0x6a09e667f3bcc908 0xbb67ae8584caa73b
         0x3c6ef372fe94f82b 0xa54ff53a5f1d36f1
         0x510e527fade682d1 0x9b05688c2b3e6c1f
         0x1f83d9abfb41bd6b 0x5be0cd19137e2179.

(** UTF-8 encoding of a string of code units below 256. *)
Fixpoint utf8 (s : string) : list Z :=
  match s with
  | EmptyString => []
  | String c r =>
      let n := code c in
      if n <? 128 then n :: utf8 r
      else (192 + n / 64) :: (128 + n mod 64) :: utf8 r
  end.

(** Big-endian bytes of [x], [n] of them. *)
Fixpoint be_bytes (n : nat) (x : Z) : list Z :=
  match n with
  | O => []
  | S k => ((x / 256 ^ Z.of_nat k) mod 256) :: be_bytes k x
  end.

(** Padding: the bit 1, zeros up to 112 modulo 128 bytes, then the
    message length in bits on 128 bits. *)
Definition pad (msg : list Z) : list Z :=
  let len := Z.of_nat (List.length msg) in
  let k := (111 - len) mod 128 in
  (msg ++ 128 :: repeat 0 (Z.to_nat k) ++ be_bytes 16 (8 * len))%list.

Definition be_word (bs : list Z) : Z :=
  fold_left (fun a b => a * 256 + b) bs 0.

(** Cut into groups of [n] elements, [count] of them. *)
Fixpoint chunks {A : Type} (count n : nat) (l : list A) : list (list A) :=
  match count with
  | O => []
  | S c => firstn n l :: chunks c n (skipn n l)
  end.

(** The message schedule, most recent word first: [rev] holds
    [W(t-1) .. W(0)]. *)
Fixpoint schedule (steps : nat) (rev : list Z) : list Z :=
  match steps with
  | O => rev
  | S k =>
      let wt := w64 (sigma1 (nth 1 rev 0) + nth 6 rev 0
                     + sigma0 (nth 14 rev 0) + nth 15 rev 0) in
      schedule k (wt :: rev)
  end.

Definition round (s : hash) (kw : Z * Z) : hash :=
  let T1 := w64 (h7 s + Sigma1 (h4 s) + Ch (h4 s) (h5 s) (h6 s)
                 + fst kw + snd kw) in
  let T2 := w64 (Sigma0 (h0 s) + Maj (h0 s) (h1 s) (h2 s)) in
  mkHash (w64 (T1 + T2)) (h0 s) (h1 s) (h2 s)
         (w64 (h3 s + T1)) (h4 s) (h5 s) (h6 s).

Definition compress (H : hash) (block : list Z) : hash :=
  let W0 := map be_word (chunks 16 8 block) in
  let W := List.rev (schedule 64 (List.rev W0)) in
  let s := fold_left round (combine K W) H in
  mkHash (w64 (h0 H + h0 s)) (w64 (h1 H + h1 s))
         (w64 (h2 H + h2 s)) (w64 (h3 H + h3 s))
         (w64 (h4 H + h4 s)) (w64 (h5 H + h5 s))
         (w64 (h6 H + h6 s)) (w64 (h7 H + h7 s)).

Definition digest (msg : list Z) : hash :=
  let p := pad msg in
  fold_left compress (chunks (List.length p / 128) 128 p) H0.

Definition hex_char (d : Z) : ascii :=
  if d <? 10 then ascii_of_N (Z.to_N (48 + d))
  else ascii_of_N (Z.to_N (87 + d)).

(** [n] hexadecimal digits of [x], most significant first. *)
Fixpoint hex_digits (n : nat) (x : Z) : string :=
  match n with
  | O => ""
  | S k => String (hex_char ((x / 16 ^ Z.of_nat k) mod 16)) (hex_digits k x)
  end.

Definition hex_of_hash (H : hash) : string :=
  hex_digits 16 (h0 H) ++ hex_digits 16 (h1 H) ++
  hex_digits 16 (h2 H) ++ hex_digits 16 (h3 H) ++
  hex_digits 16 (h4 H) ++ hex_digits 16 (h5 H) ++
  hex_digits 16 (h6 H) ++ hex_digits 16 (h7 H).

(** [crypto.createHash('sha512').update(s).digest('hex')] *)
Definition createHash_sha512_hex (s : string) : string :=
  hex_of_hash (digest (utf8 s)).

End Crypto.

(* ================================================================== *)
(** * The library: [src/fair.js] *)
(* ================================================================== *)

(** The methods of the exported module object.  A call [this.f(...)] is
    the module's own [f]: the object is not modified after it is built. *)

Module Fair.

Import JS.
Local Open Scope string_scope.
Local Open Scope Z_scope.

(** The objects handed to [selectRandomObject]. *)
Record object : Type := mkObject { id : string; probability : number }.

(** [combine: (client, server, nonce) => client + server + nonce] *)
Definition combine (client server : string) (nonce : number) : string :=
  (client ++ server) ++ number_to_string nonce.

(** [sha512: string => crypto.createHash('sha512').update(string).digest('hex')] *)
Definition sha512 (str : string) : string :=
  Crypto.createHash_sha512_hex str.

(** [generateServerSeed]: [crypto.randomBytes(256).toString('hex')], as a
    function of the bytes the system's generator delivers. *)
Definition generateServerSeed (randomBytes : nat -> list Z) : string :=
  concat "" (map (Crypto.hex_digits 2) (randomBytes 256%nat)).

(** The loop of [hexToBytes].  [i < byteCount], with
    [byteCount = hex.length / 2] possibly a half-integer, is
    [2 * i < hex.length]. *)
Fixpoint hexToBytes_loop (fuel : nat) (hex : string) (i : Z) (bytes : list Z)
  : list Z :=
  match fuel with
  | O => bytes
  | S f =>
      if 2 * i <? strlen hex then
        let byteHex := substr hex (i * 2) 2 in
        hexToBytes_loop f hex (i + 1) (store bytes i (parseInt byteHex 16))
      else bytes
  end.

(** [hexToBytes(hex)].  [new Uint8Array(byteCount)] truncates
    [byteCount]; the loop runs at most [hex.length] times. *)
Definition hexToBytes (hex : string) : list Z :=
  let bytes := Uint8Array_new (strlen hex / 2) in
  hexToBytes_loop (String.length hex) hex 0 bytes.

Definition byteGenerator (clientseed serverseed : string) (nonce : number)
  : list Z :=
  let preHash := combine clientseed serverseed nonce in
  let hash := sha512 preHash in
  hexToBytes (slice hash 0 64).

Definition generateInteger (clientSeed serverSeed : string)
  (nonce min max : number) : number :=
  let preHash := combine clientSeed serverSeed nonce in
  let hash := sha512 preHash in
  let range := add (sub max min) (of_Z 1) in
  add (rem (parseInt (slice hash 0 8) 16) range) min.

(** [generateFloats]; [precision] is [None] when the argument is left
    out, and then defaults to 2. *)
Definition generateFloats (clientSeed serverSeed : string) (nonce : number)
  (precision : option number) : completion number :=
  let precision := match precision with Some p => p | None => of_Z 2 end in
  let bytes := byteGenerator clientSeed serverSeed nonce in
  let float := parseFloat ("0." ++ join bytes "") in
  bind (toFixed float precision) (fun fixed => Normal (parseFloat fixed)).

(** [generateBool]: the comma operator evaluates the first float, drops
    it, and returns the comparison on the second. *)
Definition generateBool (clientSeed serverSeed : string) (nonce : number)
  : completion bool :=
  bind (generateFloats clientSeed serverSeed nonce (Some (of_Z 10)))
    (fun _ =>
  bind (generateFloats clientSeed serverSeed nonce (Some (of_Z 10)))
    (fun float => Normal (if le float half then true else false))).

(** The selection loop of [selectRandomObject]: [i] is the loop counter,
    [index] the running sum, [normalized] what is left of
    [normalizedProbabilities] from position [i] on. *)
Fixpoint select_loop (randomFloat : number) (objects : list object)
  (normalized : list number) (i : nat) (index : number) : option object :=
  match normalized with
  | [] => None
  | p :: rest =>
      let index := add index p in
      if lt randomFloat index then nth_error objects i
      else select_loop randomFloat objects rest (S i) index
  end.

(** [selectRandomObject]; [None] is [null]. *)
Definition selectRandomObject (clientSeed serverSeed : string)
  (nonce : number) (objects : list object) : completion (option object) :=
  let totalProbability :=
    fold_left (fun total obj => add total (probability obj)) objects (of_Z 0) in
  let normalizedProbabilities :=
    map (fun obj => div (probability obj) totalProbability) objects in
  bind (generateFloats clientSeed serverSeed nonce (Some (of_Z 10)))
    (fun randomFloat =>
  Normal (select_loop randomFloat objects normalizedProbabilities 0 (of_Z 0))).

End Fair.

(* ================================================================== *)
(** * Specification-level definitions *)
(* ================================================================== *)

(** What the specification's sentences speak of, written down
    independently of the code, to be compared with it below. *)

Module Spec.

Import JS Fair.
Local Open Scope string_scope.
Local Open Scope Z_scope.

(** Sum of the weights. *)
Definition total (options : list object) : number :=
  fold_left add (map probability options) (of_Z 0).

(** Each weight divided by the total. *)
Definition normalized (options : list object) : list number :=
  map (fun o => div (probability o) (total options)) options.

(** Running sum of the first [k] normalized weights, in input order. *)
Definition cumulative (options : list object) (k : nat) : number :=
  fold_left add (firstn k (normalized options)) (of_Z 0).

(** Value of a hexadecimal digit, 0 for any other character. *)
Definition nibble (c : ascii) : Z :=
  match digit_of 16 c with
  | Some d => d
  | None => 0
  end.

(** A string of hexadecimal digits read as a base-16 numeral, most
    significant digit first, continuing from [acc]. *)
Fixpoint hex_number (s : string) (acc : Z) : Z :=
  match s with
  | EmptyString => acc
  | String c r => hex_number r (acc * 16 + nibble c)
  end.

(** The first 8 hexadecimal characters of a digest, as an unsigned 32-bit
    integer. *)
Definition uint32_prefix (hash : string) : Z := hex_number (take 8 hash) 0.

Definition is_hex (c : ascii) : bool :=
  match digit_of 16 c with
  | Some _ => true
  | None => false
  end.

(** Value of a decimal digit, 0 for any other character. *)
Definition dec_digit (c : ascii) : Z :=
  match digit_of 10 c with
  | Some d => d
  | None => 0
  end.

(** A string of decimal digits read as a numeral, continuing from
    [acc]. *)
Fixpoint dec_number (s : string) (acc : Z) : Z :=
  match s with
  | EmptyString => acc
  | String c r => dec_number r (acc * 10 + dec_digit c)
  end.

Definition is_decimal (c : ascii) : bool :=
  match digit_of 10 c with
  | Some _ => true
  | None => false
  end.

(** A digit or one of the letters [a] to [f]. *)
Definition is_lower_hex (c : ascii) : bool :=
  ((48 <=? code c) && (code c <=? 57)) || ((97 <=? code c) && (code c <=? 102)).

Fixpoint all_chars (P : ascii -> bool) (s : string) : bool :=
  match s with
  | EmptyString => true
  | String c r => P c && all_chars P r
  end.

(** A string of [n] hexadecimal digits. *)
Definition hex_string (n : nat) (s : string) : Prop :=
  String.length s = n /\ all_chars is_hex s = true.

(** The byte that the two-character group [c1 c2] stands for.  Two
    hexadecimal digits give their base-16 value.  Otherwise the group is
    read as [parseInt] reads it: a single leading digit counts alone, white
    space or a plus sign before a digit is skipped, a minus sign before a
    digit negates it (and the byte wraps modulo 256), and anything else
    gives 0. *)
Definition group_byte (c1 c2 : ascii) : Z :=
  match digit_of 16 c1, digit_of 16 c2 with
  | Some d1, Some d2 => d1 * 16 + d2
  | Some d1, None => d1
  | None, Some d2 =>
      if is_white_space c1 || (c1 =? "+")%char then d2
      else if (c1 =? "-")%char then (- d2) mod 256
      else 0
  | None, None => 0
  end.

(** The bytes of a string taken two characters at a time; a last
    character without a partner is left out. *)
Fixpoint group_bytes (s : string) : list Z :=
  match s with
  | String c1 (String c2 r) => group_byte c1 c2 :: group_bytes r
  | _ => []
  end.

End Spec.

(* ================================================================== *)
(** * Properties *)
(* ================================================================== *)

Import JS Fair.
Local Open Scope string_scope.
Local Open Scope Z_scope.

(** ** Numbers: units and integers *)

(** The arithmetic above and the Standard Library's specification of
    binary64 agree, here on a sum that is rounded, a quotient that is
    rounded, an overflow, a subnormal quotient and two comparisons. *)
Example numbers_agree_with_SpecFloat :
  let x := parseFloat "0.1" in
  let y := parseFloat "0.2" in
  let big := parseFloat "1e308" in
  let tiny := parseFloat "5e-324" in
  to_spec (add x y) = SFadd 53 1024 (to_spec x) (to_spec y) /\
  to_spec (div x (of_Z 3)) = SFdiv 53 1024 (to_spec x) (to_spec (of_Z 3)) /\
  to_spec (add big big) = SFadd 53 1024 (to_spec big) (to_spec big) /\
  to_spec (div tiny (of_Z 3)) = SFdiv 53 1024 (to_spec tiny) (to_spec (of_Z 3)) /\
  to_spec (sub (of_Z 1) x) = SFsub 53 1024 (to_spec (of_Z 1)) (to_spec x) /\
  lt x y = SFltb (to_spec x) (to_spec y) /\
  le y x = SFleb (to_spec y) (to_spec x) /\
  is_number (add x y) = true.
Proof. vm_compute. repeat split; reflexivity. Qed.

Lemma U_pos : 0 < U.
Proof. unfold U. apply Z.pow_pos_nonneg; lia. Qed.

Lemma to_integer_of_Z (z : Z) : to_integer (of_Z z) = Some z.
Proof.
  unfold to_integer, of_Z. f_equal. apply Z.quot_mul. pose proof U_pos. lia.
Qed.

(** [toFixed] completes normally exactly on a digit count in [0..100]. *)
Lemma toFixed_normal (x fd : number) (f : Z) :
  to_integer fd = Some f -> 0 <= f <= 100 ->
  exists str, toFixed x fd = Normal str.
Proof.
  intros Hf Hr. unfold toFixed. rewrite Hf.
  replace ((f <? 0) || (100 <? f)) with false
    by (symmetry; apply orb_false_iff; split; apply Z.ltb_ge; lia).
  destruct x as [| s | u]; eauto.
  destruct (10 ^ 21 * U <=? Z.abs u); eauto.
Qed.

Lemma generateFloats_normal (c s : string) (n p : number) (f : Z) :
  to_integer p = Some f -> 0 <= f <= 100 ->
  exists x, generateFloats c s n (Some p) = Normal x.
Proof.
  intros Hf Hr. unfold generateFloats.
  destruct (toFixed_normal
              (parseFloat ("0." ++ join (byteGenerator c s n) "")) p f Hf Hr)
    as [str ->].
  simpl. eauto.
Qed.

(** ** The boolean projector *)

(** C3: [generateBool] completes with [true] exactly when the float drawn
    at precision 10 from the same seeds and nonce is [<= 0.5], and with
    [false] otherwise. *)
Theorem generateBool_float_le_half (c s : string) (n : number) :
  exists float,
    generateFloats c s n (Some (of_Z 10)) = Normal float /\
    generateBool c s n = Normal (le float half).
Proof.
  destruct (generateFloats_normal c s n (of_Z 10) 10) as [x Hx].
  - apply to_integer_of_Z.
  - lia.
  - exists x. split; [exact Hx|].
    unfold generateBool. rewrite Hx. simpl.
    destruct (le x half); reflexivity.
Qed.

(** ** Determinism *)

(** C1: the output of every generator is a function of its arguments
    only, and depends on the seeds and the nonce only through the combined
    string: two invocations whose seeds and nonce combine to the same string
    (two invocations on the same seeds and nonce among them) return
    identical outputs for identical remaining arguments. *)
Theorem generators_deterministic (c s c' s' : string) (n n' : number) :
  combine c s n = combine c' s' n' ->
  (forall min max,
     generateInteger c s n min max = generateInteger c' s' n' min max) /\
  (forall precision,
     generateFloats c s n precision = generateFloats c' s' n' precision) /\
  generateBool c s n = generateBool c' s' n' /\
  (forall objects,
     selectRandomObject c s n objects = selectRandomObject c' s' n' objects).
Proof.
  intros H.
  assert (HF : forall precision,
             generateFloats c s n precision = generateFloats c' s' n' precision).
  { intros precision. unfold generateFloats, byteGenerator.
    rewrite H. reflexivity. }
  split; [|split; [|split]].
  - intros min max. unfold generateInteger. rewrite H. reflexivity.
  - exact HF.
  - unfold generateBool. rewrite HF. reflexivity.
  - intros objects. unfold selectRandomObject. rewrite HF. reflexivity.
Qed.

(** The same seeds and nonce, and also seeds and nonce that differ but
    combine to the same string. *)
Lemma generators_deterministic_witness :
  combine "a" "b" (of_Z 10) = combine "a" "b1" (of_Z 0) /\
  generateBool "a" "b" (of_Z 10) = generateBool "a" "b1" (of_Z 0).
Proof.
  assert (H : combine "a" "b" (of_Z 10) = combine "a" "b1" (of_Z 0))
    by (vm_compute; reflexivity).
  split; [exact H|].
  apply (generators_deterministic "a" "b" "a" "b1" (of_Z 10) (of_Z 0) H).
Defined.

(** ** The weighted selector *)

Lemma fold_left_add_map (l : list object) (z : number) :
  fold_left (fun total obj => add total (probability obj)) l z
  = fold_left add (map probability l) z.
Proof.
  revert z. induction l as [|o l IH]; intros z; simpl; [reflexivity|apply IH].
Qed.

Section SelectionLoop.

Variable r : number.
Variable objs : list object.
Variable norm : list number.
Hypothesis Hlen : List.length objs = List.length norm.

(** The loop, entered at position [i] with the running sum of the first
    [i] weights, returns the first object from [i] on whose running sum
    exceeds the draw, or [None] when there is none. *)
Lemma select_loop_first :
  forall (rest seen : list number),
    norm = (seen ++ rest)%list ->
    (forall j, (j < List.length seen)%nat ->
               lt r (fold_left add (firstn (S j) norm) (of_Z 0)) = false) ->
    let res := select_loop r objs rest (List.length seen)
                 (fold_left add seen (of_Z 0)) in
    (exists i o,
        res = Some o /\ nth_error objs i = Some o /\
        lt r (fold_left add (firstn (S i) norm) (of_Z 0)) = true /\
        forall j, (j < i)%nat ->
                  lt r (fold_left add (firstn (S j) norm) (of_Z 0)) = false)
    \/ (res = None /\
        forall j, (j < List.length norm)%nat ->
                  lt r (fold_left add (firstn (S j) norm) (of_Z 0)) = false).
Proof.
  intros rest.
  induction rest as [|p rest IH]; intros seen Hn Hseen; cbn [select_loop].
  - right. split; [reflexivity|].
    intros j Hj. apply Hseen. subst norm. rewrite app_nil_r in Hj. exact Hj.
  - assert (Hcum : fold_left add (firstn (S (List.length seen)) norm) (of_Z 0)
                   = add (fold_left add seen (of_Z 0)) p).
    { subst norm.
      replace (S (List.length seen)) with (List.length seen + 1)%nat by lia.
      rewrite firstn_app_2. cbn [firstn]. rewrite fold_left_app. reflexivity. }
    destruct (lt r (add (fold_left add seen (of_Z 0)) p)) eqn:Hlt.
    + left.
      assert (Hi : (List.length seen < List.length objs)%nat).
      { rewrite Hlen. subst norm. rewrite length_app. simpl. lia. }
      destruct (nth_error objs (List.length seen)) as [o|] eqn:Ho.
      * exists (List.length seen), o.
        rewrite Hcum. repeat split; auto.
      * apply nth_error_None in Ho. lia.
    + specialize (IH (seen ++ [p])%list).
      rewrite length_app in IH. cbn [List.length] in IH.
      replace (List.length seen + 1)%nat with (S (List.length seen)) in IH by lia.
      rewrite fold_left_app in IH. cbn [fold_left] in IH.
      apply IH.
      * subst norm. rewrite <- app_assoc. reflexivity.
      * intros j Hj.
        destruct (Nat.eq_dec j (List.length seen)) as [->|Hne].
        -- rewrite Hcum. exact Hlt.
        -- apply Hseen. lia.
Qed.

End SelectionLoop.

(** C7: [selectRandomObject] draws one float at precision 10 from the
    same seeds and nonce, and walks the options in input order while
    summing the weights divided by their total: it returns the first option
    whose running sum is strictly above the draw (so that of several options
    the earliest wins), and [null], not an exception, when no running sum is
    above the draw. *)
Theorem selectRandomObject_first_exceeding
  (c s : string) (n : number) (options : list object) :
  exists draw,
    generateFloats c s n (Some (of_Z 10)) = Normal draw /\
    ((exists i o,
         selectRandomObject c s n options = Normal (Some o) /\
         nth_error options i = Some o /\
         lt draw (Spec.cumulative options (S i)) = true /\
         forall j, (j < i)%nat ->
                   lt draw (Spec.cumulative options (S j)) = false)
     \/
     (selectRandomObject c s n options = Normal None /\
      forall j, (j < List.length options)%nat ->
                lt draw (Spec.cumulative options (S j)) = false)).
Proof.
  destruct (generateFloats_normal c s n (of_Z 10) 10) as [draw Hd].
  - apply to_integer_of_Z.
  - lia.
  - exists draw. split; [exact Hd|].
    unfold selectRandomObject. rewrite Hd. simpl.
    rewrite fold_left_add_map.
    fold (Spec.total options). fold (Spec.normalized options).
    pose proof (select_loop_first draw options (Spec.normalized options)) as L.
    specialize (L (eq_sym (length_map _ options))
                  (Spec.normalized options) [] eq_refl).
    cbn [List.length fold_left app] in L.
    specialize (L (fun j (Hj : (j < 0)%nat) => False_ind _ (Nat.nlt_0_r j Hj))).
    unfold Spec.cumulative.
    destruct L as [(i & o & Hr & Hn & Ht & Hb) | (Hr & Hb)].
    + left. exists i, o. rewrite Hr. repeat split; auto.
    + right. rewrite Hr. split; [reflexivity|].
      intros j Hj. apply Hb. unfold Spec.normalized.
      rewrite length_map. exact Hj.
Qed.

Lemma lt_NaN_r (r : number) : lt r NaN = false.
Proof. destruct r as [|[]|]; reflexivity. Qed.

Lemma add_NaN_r (x : number) : add x NaN = NaN.
Proof. destruct x; reflexivity. Qed.

Lemma select_loop_NaN (r : number) (objs : list object) (norm : list number) :
  Forall (fun p => p = NaN) norm ->
  forall i idx, select_loop r objs norm i idx = None.
Proof.
  induction 1 as [|p norm Hp _ IH]; intros i idx; cbn [select_loop].
  - reflexivity.
  - subst p. rewrite add_NaN_r, lt_NaN_r. apply IH.
Qed.

Lemma total_zero (options : list object) :
  (forall o, In o options -> probability o = of_Z 0) ->
  Spec.total options = of_Z 0.
Proof.
  unfold Spec.total. induction options as [|o l IH]; intros H.
  - reflexivity.
  - cbn [map fold_left]. rewrite (H o (or_introl eq_refl)).
    replace (add (of_Z 0) (of_Z 0)) with (of_Z 0) by (vm_compute; reflexivity).
    apply IH. intros o' Ho'. apply H. right. exact Ho'.
Qed.

(** C6, as the code has it: [selectRandomObject] checks nothing and
    raises nothing.  Whatever the options (empty, with a negative weight,
    with weights that sum to 0), it completes normally with an option or
    with [null]; on the empty sequence, and when every weight is 0, the
    result is [null]. *)
Theorem selectRandomObject_never_fails
  (c s : string) (n : number) (options : list object) :
  (exists r, selectRandomObject c s n options = Normal r) /\
  selectRandomObject c s n [] = Normal None /\
  ((forall o, In o options -> probability o = of_Z 0) ->
   selectRandomObject c s n options = Normal None).
Proof.
  destruct (generateFloats_normal c s n (of_Z 10) 10) as [draw Hd];
    [apply to_integer_of_Z | lia |].
  unfold selectRandomObject. rewrite Hd. cbn [bind].
  repeat split.
  - eauto.
  - intros H0. f_equal. apply select_loop_NaN.
    rewrite fold_left_add_map. fold (Spec.total options).
    rewrite (total_zero options H0).
    apply Forall_forall. intros p Hp. apply in_map_iff in Hp.
    destruct Hp as (o & <- & Ho). rewrite (H0 o Ho). reflexivity.
Qed.

Lemma selectRandomObject_never_fails_witness :
  selectRandomObject "a" "b" (of_Z 0) [mkObject "x" (of_Z 0)] = Normal None.
Proof.
  apply (selectRandomObject_never_fails "a" "b" (of_Z 0)
           [mkObject "x" (of_Z 0)]).
  intros o [<-|[]]. reflexivity.
Defined.

(** The float drawn from the seeds ["a"], ["b"] and the nonce 17, before
    it is rounded to the requested digits. *)
Lemma raw_float_a_b_17 :
  parseFloat ("0." ++ join (byteGenerator "a" "b" (of_Z 17)) "")
  = parseFloat "0.9715758245131217".
Proof. vm_compute. reflexivity. Qed.

(** C6 fails as stated: an empty sequence, a negative weight and a zero
    total are all accepted, and a result is produced. *)
Lemma selectRandomObject_invalid_options_accepted :
  selectRandomObject "a" "b" (of_Z 17) [] = Normal None /\
  selectRandomObject "a" "b" (of_Z 17)
    [mkObject "x" (of_Z (-1)); mkObject "y" (of_Z 2)]
  = Normal (Some (mkObject "y" (of_Z 2))) /\
  selectRandomObject "a" "b" (of_Z 17)
    [mkObject "x" (of_Z 1); mkObject "y" (of_Z (-1))]
  = Normal (Some (mkObject "x" (of_Z 1))).
Proof.
  unfold selectRandomObject, generateFloats. cbv zeta.
  rewrite raw_float_a_b_17.
  vm_compute. repeat split; reflexivity.
Qed.

(** ** Rounding of integers

    Integers up to [2^53] in magnitude are Numbers, and arithmetic that
    stays among them is exact; above [2^53] rounding sets in, without ever
    coming back below. *)

Lemma rne_div_mod (a b : Z) :
  rne a b =
  match (2 * (a mod b) ?= b) with
  | Lt => a / b
  | Gt => a / b + 1
  | Eq => if Z.even (a / b) then a / b else a / b + 1
  end.
Proof.
  unfold rne, Z.div, Z.modulo. destruct (Z.div_eucl a b). reflexivity.
Qed.

Lemma rne_exact (a b : Z) : 0 < b -> a mod b = 0 -> rne a b = a / b.
Proof.
  intros Hb Hm. rewrite rne_div_mod. rewrite Hm. cbn [Z.mul].
  rewrite (proj2 (Z.compare_lt_iff 0 b) Hb). reflexivity.
Qed.

Lemma rne_bounds (a b : Z) : a / b <= rne a b <= a / b + 1.
Proof.
  rewrite rne_div_mod.
  destruct (2 * (a mod b) ?= b); [destruct (Z.even (a / b))| |]; lia.
Qed.

Lemma HUGE_eq : HUGE = 2 ^ 1024 * U.
Proof. unfold HUGE, U. rewrite <- Z.pow_add_r by lia. reflexivity. Qed.

Lemma round_pos_exact (a : Z) :
  0 <= a < HUGE ->
  a mod 2 ^ Z.max 0 (Z.log2 a - 52) = 0 ->
  round_pos a 1 = Fin a.
Proof.
  intros Ha Hm. unfold round_pos. rewrite Z.div_1_r, Z.mul_1_l.
  set (s := Z.max 0 (Z.log2 a - 52)) in *.
  assert (Hs : 0 < 2 ^ s) by (apply Z.pow_pos_nonneg; lia).
  rewrite (rne_exact a (2 ^ s) Hs Hm).
  replace (a / 2 ^ s * 2 ^ s) with a.
  - replace (a <? HUGE) with true by (symmetry; apply Z.ltb_lt; lia).
    reflexivity.
  - rewrite Z.mul_comm. apply Z_div_exact_full_2; lia.
Qed.

Lemma units_53_bits (z : Z) :
  0 <= z <= 2 ^ 53 ->
  (z * U) mod 2 ^ Z.max 0 (Z.log2 (z * U) - 52) = 0.
Proof.
  intros Hz. destruct (Z.eq_dec z 0) as [->|Hnz]; [reflexivity|].
  unfold U. rewrite Z.log2_mul_pow2 by lia.
  pose proof (Z.log2_nonneg z) as Hl0.
  assert (Hl : Z.log2 z <= 53).
  { replace 53 with (Z.log2 (2 ^ 53)) by (rewrite Z.log2_pow2; lia).
    apply Z.log2_le_mono. lia. }
  rewrite Z.max_r by lia.
  destruct (Z.eq_dec (Z.log2 z) 53) as [E|NE].
  - assert (z = 2 ^ 53).
    { pose proof (Z.log2_spec z ltac:(lia)) as [Hlo _]. rewrite E in Hlo. lia. }
    subst z. rewrite E. rewrite <- Z.pow_add_r by lia.
    replace (53 + 1074) with (52 + (1074 + 53 - 52)) by lia.
    rewrite Z.pow_add_r by lia. apply Z.mod_mul.
    apply Z.pow_nonzero; lia.
  - replace 1074 with ((52 - Z.log2 z) + (1074 + Z.log2 z - 52)) at 1 by lia.
    rewrite Z.pow_add_r by lia. rewrite Z.mul_assoc. apply Z.mod_mul.
    apply Z.pow_nonzero; lia.
Qed.

Lemma round_pos_of_Z (z : Z) :
  0 <= z <= 2 ^ 53 -> round_pos (z * U) 1 = Fin (z * U).
Proof.
  intros Hz. apply round_pos_exact.
  - pose proof U_pos. rewrite HUGE_eq. split; [nia|].
    apply Z.mul_lt_mono_pos_r; [assumption|].
    apply Z.le_lt_trans with (2 ^ 53); [lia|].
    apply Z.pow_lt_mono_r; lia.
  - apply units_53_bits. exact Hz.
Qed.

Lemma round_ratio_of_Z (z : Z) :
  - 2 ^ 53 <= z <= 2 ^ 53 -> round_ratio (z * U) 1 = of_Z z.
Proof.
  intros Hz. pose proof U_pos as HU. unfold round_ratio, of_Z.
  destruct (Z.ltb_spec (z * U) 0) as [Hneg|Hpos].
  - replace (- (z * U)) with ((- z) * U) by ring.
    rewrite round_pos_of_Z by nia. cbn [neg]. f_equal. ring.
  - apply round_pos_of_Z. nia.
Qed.

Lemma add_of_Z (x y : Z) :
  - 2 ^ 53 <= x + y <= 2 ^ 53 -> add (of_Z x) (of_Z y) = of_Z (x + y).
Proof.
  intros H. unfold add, of_Z. fold (of_Z (x + y)).
  replace (x * U + y * U) with ((x + y) * U) by ring.
  apply round_ratio_of_Z. exact H.
Qed.

Lemma sub_of_Z (x y : Z) :
  - 2 ^ 53 <= x - y <= 2 ^ 53 -> sub (of_Z x) (of_Z y) = of_Z (x - y).
Proof.
  intros H. unfold sub, add, of_Z, neg. fold (of_Z (x - y)).
  replace (x * U + - (y * U)) with ((x - y) * U) by ring.
  apply round_ratio_of_Z. exact H.
Qed.

(** [v % r] on integers: the magnitude of the divisor counts, not its
    sign. *)
Lemma rem_of_Z (v r : Z) :
  0 <= v -> r <> 0 -> rem (of_Z v) (of_Z r) = of_Z (v mod Z.abs r).
Proof.
  intros Hv Hr. pose proof U_pos as HU. unfold rem, of_Z.
  replace (r * U =? 0) with false by (symmetry; apply Z.eqb_neq; nia).
  f_equal.
  rewrite <- (Z.rem_abs_r (v * U) (r * U)) by nia.
  rewrite Z.abs_mul, (Z.abs_eq U) by lia.
  rewrite Z.rem_mod_nonneg by nia.
  apply Z.mul_mod_distr_r; lia.
Qed.

(** From [2^e] on, with [e >= 52], rounding may change a value, but not
    bring it below [2^e]. *)
Lemma round_pos_above (a e : Z) :
  52 <= e -> 2 ^ e <= a < 2 ^ 2097 ->
  exists u, round_pos a 1 = Fin u /\ 2 ^ e <= u <= 2 * a.
Proof.
  intros He [Hlo Hhi]. unfold round_pos. rewrite Z.div_1_r, Z.mul_1_l.
  assert (Ha : 0 < a).
  { apply Z.lt_le_trans with (2 ^ e); [apply Z.pow_pos_nonneg; lia|exact Hlo]. }
  assert (Hl : e <= Z.log2 a) by (apply Z.log2_le_pow2; assumption).
  assert (Hl' : Z.log2 a < 2097) by (apply Z.log2_lt_pow2; assumption).
  destruct (Z.log2_spec a Ha) as [Hp _].
  rewrite Z.max_r by lia.
  set (s := Z.log2 a - 52) in *.
  assert (Hps : 2 ^ Z.log2 a = 2 ^ 52 * 2 ^ s).
  { rewrite <- Z.pow_add_r by lia. f_equal. lia. }
  assert (Hel : 2 ^ e <= 2 ^ Z.log2 a) by (apply Z.pow_le_mono_r; lia).
  assert (HH : 2 * 2 ^ 2097 = HUGE).
  { unfold HUGE. change 2098 with (Z.succ 2097).
    rewrite Z.pow_succ_r by lia. reflexivity. }
  assert (Hs : 0 < 2 ^ s) by (apply Z.pow_pos_nonneg; lia).
  assert (H52 : 0 < 2 ^ 52) by (apply Z.pow_pos_nonneg; lia).
  pose proof (rne_bounds a (2 ^ s)) as [Hr1 Hr2].
  assert (Hd1 : 2 ^ 52 <= a / 2 ^ s).
  { apply Z.div_le_lower_bound; [exact Hs|]. rewrite Z.mul_comm, <- Hps. exact Hp. }
  assert (Hd2 : 2 ^ s * (a / 2 ^ s) <= a) by (apply Z.mul_div_le; exact Hs).
  set (m := rne a (2 ^ s)) in *. set (q := a / 2 ^ s) in *.
  set (P := 2 ^ s) in *. set (Q52 := 2 ^ 52) in *.
  set (PL := 2 ^ Z.log2 a) in *. set (PE := 2 ^ e) in *.
  set (P2097 := 2 ^ 2097) in *. set (H := HUGE) in *.
  clearbody m q P Q52 PL PE P2097 H.
  assert (M1 : Q52 * P <= q * P) by (apply Z.mul_le_mono_nonneg_r; lia).
  assert (M2 : q * P <= m * P) by (apply Z.mul_le_mono_nonneg_r; lia).
  assert (M3 : m * P <= (q + 1) * P) by (apply Z.mul_le_mono_nonneg_r; lia).
  assert (M4 : 1 * P <= Q52 * P) by (apply Z.mul_le_mono_nonneg_r; lia).
  assert (Hu : PE <= m * P <= 2 * a) by lia.
  exists (m * P). split; [|exact Hu].
  replace (m * P <? H) with true; [reflexivity|].
  symmetry. apply Z.ltb_lt. lia.
Qed.

Lemma round_pos_big (a : Z) :
  2 ^ 53 * U <= a < 2 ^ 2097 ->
  exists u, round_pos a 1 = Fin u /\ 2 ^ 53 * U <= u <= 2 * a.
Proof.
  assert (HT : 2 ^ 53 * U = 2 ^ 1127).
  { unfold U. rewrite <- Z.pow_add_r by lia. f_equal. }
  rewrite HT. apply round_pos_above. lia.
Qed.

(** ** Characters and digit strings *)

Ltac each_ascii c :=
  destruct c as [[] [] [] [] [] [] [] []].

Lemma digit_of_range (R : Z) (c : ascii) (d : Z) :
  digit_of R c = Some d -> 0 <= d < R.
Proof.
  unfold digit_of, digit_value.
  destruct ((48 <=? code c) && (code c <=? 57)) eqn:E1;
    [|destruct ((97 <=? code c) && (code c <=? 122)) eqn:E2;
      [|destruct ((65 <=? code c) && (code c <=? 90)) eqn:E3;
        [|discriminate]]];
    match goal with
    | |- context [?x <? R] => destruct (Z.ltb_spec x R); [|discriminate]
    end;
    intros [= <-];
    match goal with
    | E : _ && _ = true |- _ => apply andb_prop in E; destruct E as [Ea Eb]
    end;
    apply Z.leb_le in Ea; lia.
Qed.

(** A hexadecimal digit is no white space, no sign and no [x]. *)
Lemma hex_not_special (c : ascii) :
  Spec.is_hex c = true ->
  is_white_space c = false /\ (c =? "-")%char = false /\
  (c =? "+")%char = false /\ (c =? "x")%char = false /\
  (c =? "X")%char = false.
Proof.
  each_ascii c; intros H; vm_compute in H; try discriminate H;
    vm_compute; repeat split; reflexivity.
Qed.

Lemma take_digits_hex (s : string) :
  Spec.all_chars Spec.is_hex s = true ->
  take_digits 16 s = (map Spec.nibble (list_ascii_of_string s), "").
Proof.
  induction s as [|c r IH]; cbn [Spec.all_chars]; intros H; [reflexivity|].
  apply andb_prop in H. destruct H as [Hc Hr].
  cbn [take_digits list_ascii_of_string map]. rewrite (IH Hr).
  unfold Spec.is_hex in Hc.
  destruct (digit_of 16 c) as [d|] eqn:E; [|discriminate].
  replace (Spec.nibble c) with d by (unfold Spec.nibble; rewrite E; reflexivity).
  reflexivity.
Qed.

Lemma fold_nibbles (s : string) (acc : Z) :
  fold_left (fun a d => a * 16 + d)
            (map Spec.nibble (list_ascii_of_string s)) acc
  = Spec.hex_number s acc.
Proof.
  revert acc. induction s as [|c r IH]; intros acc; [reflexivity|].
  cbn [list_ascii_of_string map fold_left Spec.hex_number]. apply IH.
Qed.

Lemma nibble_range (c : ascii) : 0 <= Spec.nibble c < 16.
Proof.
  unfold Spec.nibble. destruct (digit_of 16 c) eqn:E; [|lia].
  apply (digit_of_range 16 c z E).
Qed.

Lemma hex_number_range (s : string) (acc : Z) :
  0 <= acc ->
  0 <= Spec.hex_number s acc < (acc + 1) * 16 ^ strlen s.
Proof.
  revert acc. unfold strlen.
  induction s as [|c r IH]; intros acc Hacc; cbn [Spec.hex_number String.length].
  - rewrite Z.pow_0_r. lia.
  - pose proof (nibble_range c) as Hc.
    specialize (IH (acc * 16 + Spec.nibble c) ltac:(lia)).
    rewrite Nat2Z.inj_succ, Z.pow_succ_r by lia.
    assert (0 < 16 ^ Z.of_nat (String.length r)) by (apply Z.pow_pos_nonneg; lia).
    nia.
Qed.

(** [parseInt] in radix 16 on a non-empty string of hexadecimal digits
    reads all of it. *)
Lemma parseInt_hex (s : string) :
  s <> "" -> Spec.all_chars Spec.is_hex s = true ->
  parseInt s 16 = round_ratio (Spec.hex_number s 0 * U) 1.
Proof.
  intros Hne Hall. destruct s as [|c r]; [congruence|].
  pose proof Hall as Hall'. cbn [Spec.all_chars] in Hall'.
  apply andb_prop in Hall'. destruct Hall' as [Hc Hr].
  destruct (hex_not_special c Hc) as (Hw & Hm & Hp & _).
  unfold parseInt. cbn [trim_start]. rewrite Hw.
  unfold strip_sign. rewrite Hm, Hp.
  cbn [Z.eqb Z.leb Z.compare Pos.compare Pos.compare_cont Pos.eqb orb andb].
  assert (Hs2 : match r with
                | String x r0 =>
                    if ((c =? "0") && ((x =? "x") || (x =? "X")))%char
                    then r0 else String c r
                | EmptyString => String c r
                end = String c r).
  { destruct r as [|x r0]; [reflexivity|].
    cbn [Spec.all_chars] in Hr. apply andb_prop in Hr. destruct Hr as [Hx _].
    destruct (hex_not_special x Hx) as (_ & _ & _ & Hx1 & Hx2).
    rewrite Hx1, Hx2, andb_false_r. reflexivity. }
  rewrite Hs2. rewrite (take_digits_hex _ Hall).
  cbn [fst list_ascii_of_string map]. unfold digits_value.
  change (Spec.nibble c :: map Spec.nibble (list_ascii_of_string r))
    with (map Spec.nibble (list_ascii_of_string (String c r))).
  rewrite fold_nibbles, Z.mul_1_l. reflexivity.
Qed.

Lemma length_append (a b : string) :
  String.length (a ++ b) = (String.length a + String.length b)%nat.
Proof. induction a as [|c a IH]; cbn; [reflexivity|rewrite IH; reflexivity]. Qed.

Lemma all_chars_append (P : ascii -> bool) (a b : string) :
  Spec.all_chars P (a ++ b) = Spec.all_chars P a && Spec.all_chars P b.
Proof.
  induction a as [|c a IH]; cbn; [reflexivity|].
  rewrite IH. apply andb_assoc.
Qed.

Lemma length_take (n : nat) (s : string) :
  String.length (take n s) = Nat.min n (String.length s).
Proof.
  revert s. induction n as [|n IH]; intros [|c r]; cbn; try reflexivity.
  rewrite IH. reflexivity.
Qed.

Lemma all_chars_take (P : ascii -> bool) (n : nat) (s : string) :
  Spec.all_chars P s = true -> Spec.all_chars P (take n s) = true.
Proof.
  revert s. induction n as [|n IH]; intros [|c r]; cbn; try reflexivity.
  intros H. apply andb_prop in H. destruct H as [Hc Hr].
  rewrite Hc, (IH r Hr). reflexivity.
Qed.

Lemma slice_prefix (s : string) (n : Z) :
  0 <= n <= strlen s -> slice s 0 n = take (Z.to_nat n) s.
Proof.
  intros Hn. unfold slice, strlen in *. cbn [Z.ltb Z.compare].
  replace (n <? 0) with false by (symmetry; apply Z.ltb_ge; lia).
  rewrite (Z.min_l 0) by lia. rewrite (Z.min_l n) by lia.
  rewrite Z.sub_0_r. reflexivity.
Qed.

(** ** The digest: 128 hexadecimal digits *)

Lemma hex_char_digit (d : Z) :
  0 <= d < 16 -> digit_of 16 (Crypto.hex_char d) = Some d.
Proof.
  intros Hd.
  assert (Hn : (Z.to_nat d < 16)%nat) by lia.
  rewrite <- (Z2Nat.id d) by lia.
  revert Hn. generalize (Z.to_nat d). intros n Hn.
  do 16 (destruct n as [|n]; [reflexivity|]). lia.
Qed.

Lemma hex_string_append (n m : nat) (a b : string) :
  Spec.hex_string n a -> Spec.hex_string m b ->
  Spec.hex_string (n + m) (a ++ b).
Proof.
  intros [La Ha] [Lb Hb]. split.
  - rewrite length_append, La, Lb. reflexivity.
  - rewrite all_chars_append, Ha, Hb. reflexivity.
Qed.

Lemma hex_digits_format (n : nat) (x : Z) :
  Spec.hex_string n (Crypto.hex_digits n x).
Proof.
  induction n as [|n [IHl IHa]]; split; cbn [Crypto.hex_digits String.length Spec.all_chars];
    try reflexivity.
  - rewrite IHl. reflexivity.
  - rewrite IHa, andb_true_r. unfold Spec.is_hex.
    rewrite hex_char_digit; [reflexivity|].
    apply Z.mod_pos_bound. lia.
Qed.

Lemma sha512_format (str : string) : Spec.hex_string 128 (sha512 str).
Proof.
  unfold sha512, Crypto.createHash_sha512_hex, Crypto.hex_of_hash.
  change 128%nat with (16 + (16 + (16 + (16 + (16 + (16 + (16 + 16)))))))%nat.
  repeat apply hex_string_append; apply hex_digits_format.
Qed.

(** [parseInt(hash.slice(0, 8), 16)] is the 32-bit prefix of a digest. *)
Lemma hex_prefix_parse (hash : string) :
  Spec.hex_string 128 hash ->
  parseInt (slice hash 0 8) 16 = of_Z (Spec.uint32_prefix hash) /\
  0 <= Spec.uint32_prefix hash < 2 ^ 32.
Proof.
  intros [Hlen Hall].
  assert (Hl8 : String.length (take 8 hash) = 8%nat)
    by (rewrite length_take, Hlen; reflexivity).
  assert (Hr : 0 <= Spec.hex_number (take 8 hash) 0 < 2 ^ 32).
  { pose proof (hex_number_range (take 8 hash) 0 ltac:(lia)) as H.
    unfold strlen in H. rewrite Hl8 in H.
    change (16 ^ Z.of_nat 8) with (2 ^ 32) in H. lia. }
  unfold Spec.uint32_prefix.
  split; [|exact Hr].
  rewrite slice_prefix by (unfold strlen; rewrite Hlen; lia).
  change (Z.to_nat 8) with 8%nat.
  rewrite parseInt_hex.
  - assert (2 ^ 32 < 2 ^ 53) by reflexivity.
    rewrite round_ratio_of_Z by lia. reflexivity.
  - intros E. rewrite E in Hl8. discriminate Hl8.
  - apply all_chars_take. exact Hall.
Qed.

Lemma digest_prefix_parse (str : string) :
  parseInt (slice (sha512 str) 0 8) 16
  = of_Z (Spec.uint32_prefix (sha512 str)) /\
  0 <= Spec.uint32_prefix (sha512 str) < 2 ^ 32.
Proof. apply hex_prefix_parse. apply sha512_format. Qed.

(** ** The integer projector *)

(** C2, on the integers JavaScript computes with exactly: for [min] and
    [max] between [-(2^53 - 1)] and [2^53 - 1] with [min <= max],
    [generateInteger] is the 32-bit prefix of the digest, modulo
    [max - min + 1], plus [min]; the result lies in [min..max]. *)
Theorem generateInteger_mod_range (c s : string) (n : number) (min max : Z) :
  - 2 ^ 53 < min -> min <= max -> max < 2 ^ 53 ->
  let v := Spec.uint32_prefix (sha512 (combine c s n)) in
  0 <= v < 2 ^ 32 /\
  generateInteger c s n (of_Z min) (of_Z max)
  = of_Z (v mod (max - min + 1) + min) /\
  min <= v mod (max - min + 1) + min <= max.
Proof.
  intros Hmin Hle Hmax v.
  assert (H32 : 2 ^ 32 < 2 ^ 53) by reflexivity.
  destruct (digest_prefix_parse (combine c s n)) as [Hparse Hv].
  fold v in Hparse, Hv. clearbody v.
  pose proof U_pos as HU.
  assert (Hmod : 0 <= v mod (max - min + 1) < max - min + 1)
    by (apply Z.mod_pos_bound; lia).
  split; [exact Hv|]. split; [|lia].
  unfold generateInteger. rewrite Hparse.
  destruct (Z_lt_le_dec (max - min) (2 ^ 53)) as [Hsmall|Hbig].
  - rewrite sub_of_Z by lia. rewrite add_of_Z by lia.
    rewrite rem_of_Z by lia. rewrite Z.abs_eq by lia.
    apply add_of_Z. lia.
  - (* the range itself is rounded, but stays above every 32-bit value *)
    assert (Hsub : exists u, sub (of_Z max) (of_Z min) = Fin u /\
                             2 ^ 53 * U <= u <= 2 ^ 55 * U).
    { unfold sub, add, of_Z, neg, round_ratio.
      replace (max * U + - (min * U)) with ((max - min) * U) by ring.
      replace ((max - min) * U <? 0) with false
        by (symmetry; apply Z.ltb_ge; nia).
      destruct (round_pos_big ((max - min) * U)) as (u & -> & Hu).
      - split; [nia|]. unfold U. 
        apply Z.lt_le_trans with (2 ^ 54 * 2 ^ 1074); [nia|].
        rewrite <- Z.pow_add_r by lia. apply Z.pow_le_mono_r; lia.
      - exists u. split; [reflexivity|]. nia. }
    destruct Hsub as (u1 & -> & Hu1).
    assert (Hadd : exists u, add (Fin u1) (of_Z 1) = Fin u /\ 2 ^ 53 * U <= u).
    { unfold add, of_Z, round_ratio.
      replace (u1 + 1 * U <? 0) with false
        by (symmetry; apply Z.ltb_ge; nia).
      destruct (round_pos_big (u1 + 1 * U)) as (u & -> & Hu).
      - split; [nia|]. unfold U in *.
        apply Z.le_lt_trans with (2 ^ 56 * 2 ^ 1074); [nia|].
        rewrite <- Z.pow_add_r by lia. apply Z.pow_lt_mono_r; lia.
      - exists u. split; [reflexivity|]. lia. }
    destruct Hadd as (u2 & -> & Hu2).
    unfold rem, of_Z at 1.
    replace (u2 =? 0) with false by (symmetry; apply Z.eqb_neq; nia).
    rewrite Z.rem_small by nia.
    fold (of_Z v). rewrite add_of_Z by lia.
    rewrite Z.mod_small by lia. reflexivity.
Qed.

Lemma generateInteger_mod_range_witness :
  generateInteger "a" "b" (of_Z 0) (of_Z 1) (of_Z 6)
  = of_Z (Spec.uint32_prefix (sha512 (combine "a" "b" (of_Z 0)))
          mod (6 - 1 + 1) + 1).
Proof.
  apply (generateInteger_mod_range "a" "b" (of_Z 0) 1 6); lia.
Defined.

Lemma of_Z_inj (x y : Z) : of_Z x = of_Z y -> x = y.
Proof.
  unfold of_Z. intros [= H]. pose proof U_pos.
  apply Z.mul_reg_r in H; lia.
Qed.

(** C2 fails as stated beyond [2^53]: [min = 2^60] and
    [max = 2^60 + 256] are Numbers, but the sum of the remainder (40) and
    [min] is rounded to a Number, and is [min] itself rather than
    [min + 40]. *)
Lemma generateInteger_rounds_beyond_2_53 :
  let v := Spec.uint32_prefix (sha512 (combine "a" "b" (of_Z 0))) in
  is_number (of_Z (2 ^ 60)) = true /\
  is_number (of_Z (2 ^ 60 + 256)) = true /\
  v mod (2 ^ 60 + 256 - 2 ^ 60 + 1) + 2 ^ 60 = 2 ^ 60 + 40 /\
  generateInteger "a" "b" (of_Z 0) (of_Z (2 ^ 60)) (of_Z (2 ^ 60 + 256))
  = of_Z (2 ^ 60) /\
  generateInteger "a" "b" (of_Z 0) (of_Z (2 ^ 60)) (of_Z (2 ^ 60 + 256))
  <> of_Z (v mod (2 ^ 60 + 256 - 2 ^ 60 + 1) + 2 ^ 60).
Proof.
  intros v.
  assert (Hv : v mod (2 ^ 60 + 256 - 2 ^ 60 + 1) + 2 ^ 60 = 2 ^ 60 + 40)
    by (vm_compute; reflexivity).
  assert (Hg : generateInteger "a" "b" (of_Z 0) (of_Z (2 ^ 60))
                 (of_Z (2 ^ 60 + 256)) = of_Z (2 ^ 60))
    by (vm_compute; reflexivity).
  split; [vm_compute; reflexivity|]. split; [vm_compute; reflexivity|].
  split; [exact Hv|]. split; [exact Hg|].
  rewrite Hg, Hv. intros H. apply of_Z_inj in H. lia.
Qed.

(** C4, as the code has it: a reversed range is not rejected.  For
    integers of magnitude at most [2^52] with [max < min],
    [generateInteger] returns [NaN] when [max = min - 1], and otherwise [min]
    plus the 32-bit prefix of the digest modulo [min - max - 1]: a Number
    from [min] upwards. *)
Theorem generateInteger_reversed_range
  (c s : string) (n : number) (min max : Z) :
  - 2 ^ 52 <= max -> max < min -> min <= 2 ^ 52 ->
  let v := Spec.uint32_prefix (sha512 (combine c s n)) in
  generateInteger c s n (of_Z min) (of_Z max)
  = if max =? min - 1 then NaN else of_Z (v mod (min - max - 1) + min).
Proof.
  intros Hmax Hlt Hmin v.
  assert (H52 : 2 ^ 52 + 2 ^ 52 = 2 ^ 53) by reflexivity.
  assert (H32 : 2 ^ 32 < 2 ^ 52) by reflexivity.
  destruct (digest_prefix_parse (combine c s n)) as [Hparse Hv].
  fold v in Hparse, Hv. clearbody v.
  unfold generateInteger. rewrite Hparse.
  rewrite sub_of_Z by lia. rewrite add_of_Z by lia.
  destruct (Z.eqb_spec max (min - 1)) as [E|NE].
  - replace (max - min + 1) with 0 by lia. reflexivity.
  - rewrite rem_of_Z by lia.
    replace (Z.abs (max - min + 1)) with (min - max - 1) by lia.
    pose proof (Z.mod_pos_bound v (min - max - 1) ltac:(lia)).
    pose proof (Z.mod_le v (min - max - 1) ltac:(lia) ltac:(lia)).
    apply add_of_Z. lia.
Qed.

Lemma generateInteger_reversed_range_witness :
  generateInteger "a" "b" (of_Z 0) (of_Z 5) (of_Z 1)
  = if 1 =? 5 - 1 then NaN
    else of_Z (Spec.uint32_prefix (sha512 (combine "a" "b" (of_Z 0)))
               mod (5 - 1 - 1) + 5).
Proof.
  apply (generateInteger_reversed_range "a" "b" (of_Z 0) 5 1); lia.
Defined.

(** C4 fails as stated: with [min = 5] and [max = 1] the call returns 7. *)
Lemma generateInteger_reversed_5_1 :
  generateInteger "a" "b" (of_Z 0) (of_Z 5) (of_Z 1) = of_Z 7.
Proof. vm_compute. reflexivity. Qed.

(** ** The byte extractor *)

Lemma to_uint8_of_Z (z : Z) : to_uint8 (of_Z z) = z mod 256.
Proof.
  unfold to_uint8, of_Z. rewrite Z.quot_mul; [reflexivity|].
  pose proof U_pos. lia.
Qed.

Lemma to_uint8_round (z : Z) :
  - 255 <= z <= 255 -> to_uint8 (round_ratio (z * U) 1) = z mod 256.
Proof.
  intros Hz. assert (255 < 2 ^ 53) by reflexivity.
  rewrite round_ratio_of_Z by lia. apply to_uint8_of_Z.
Qed.

Lemma white_space_not_hex (c : ascii) :
  is_white_space c = true -> digit_of 16 c = None.
Proof.
  each_ascii c; intros H; vm_compute in H; try discriminate H; reflexivity.
Qed.

Lemma parseInt_16 (s : string) :
  parseInt s 16 =
  let (minus, s1) := strip_sign (trim_start s) in
  let s2 :=
    match s1 with
    | String c (String x r) =>
        if ((c =? "0") && ((x =? "x") || (x =? "X")))%char then r else s1
    | _ => s1
    end in
  match fst (take_digits 16 s2) with
  | [] => NaN
  | ds => round_ratio ((if minus then -1 else 1) * digits_value 16 ds * U) 1
  end.
Proof. reflexivity. Qed.

(** One character after the sign: a digit, or nothing to read. *)
Lemma parse_single (minus : bool) (c : ascii) :
  to_uint8
    match fst (take_digits 16 (String c "")) with
    | [] => NaN
    | ds => round_ratio ((if minus then -1 else 1) * digits_value 16 ds * U) 1
    end
  = match digit_of 16 c with
    | Some d => (if minus then - d else d) mod 256
    | None => 0
    end.
Proof.
  cbn [take_digits]. destruct (digit_of 16 c) as [d|] eqn:D; cbn [fst];
    [|reflexivity].
  pose proof (digit_of_range 16 c d D) as Hd.
  unfold digits_value. cbn [fold_left].
  replace ((if minus then -1 else 1) * (0 * 16 + d) * U)
    with ((if minus then - d else d) * U) by (destruct minus; ring).
  apply to_uint8_round. destruct minus; lia.
Qed.

(** What [hexToBytes] stores for a group of two characters. *)
Lemma parse_group (c1 c2 : ascii) :
  to_uint8 (parseInt (String c1 (String c2 "")) 16) = Spec.group_byte c1 c2.
Proof.
  rewrite parseInt_16. unfold Spec.group_byte. cbn [trim_start].
  destruct (digit_of 16 c1) as [d1|] eqn:D1.
  - (* a digit first *)
    assert (H1 : Spec.is_hex c1 = true) by (unfold Spec.is_hex; rewrite D1; reflexivity).
    destruct (hex_not_special c1 H1) as (W1 & M1 & P1 & _).
    pose proof (digit_of_range 16 c1 d1 D1) as R1.
    rewrite W1. unfold strip_sign. rewrite M1, P1.
    destruct (digit_of 16 c2) as [d2|] eqn:D2.
    + assert (H2 : Spec.is_hex c2 = true) by (unfold Spec.is_hex; rewrite D2; reflexivity).
      destruct (hex_not_special c2 H2) as (_ & _ & _ & X1 & X2).
      pose proof (digit_of_range 16 c2 d2 D2) as R2.
      rewrite X1, X2, andb_false_r.
      cbn [take_digits]. rewrite D1, D2. cbn [fst].
      unfold digits_value. cbn [fold_left].
      replace (1 * ((0 * 16 + d1) * 16 + d2) * U) with ((d1 * 16 + d2) * U) by ring.
      rewrite to_uint8_round by lia. apply Z.mod_small. lia.
    + destruct ((c1 =? "0")%char && ((c2 =? "x")%char || (c2 =? "X")%char)) eqn:P.
      * apply andb_prop in P. destruct P as [P0 _].
        apply Ascii.eqb_eq in P0. subst c1.
        vm_compute in D1. injection D1 as <-. reflexivity.
      * cbn [take_digits]. rewrite D1, D2. cbn [fst].
        unfold digits_value. cbn [fold_left].
        replace (1 * (0 * 16 + d1) * U) with (d1 * U) by ring.
        rewrite to_uint8_round by lia. apply Z.mod_small. lia.
  - (* no digit first *)
    destruct (is_white_space c1) eqn:W1.
    + (* white space: only the second character is read *)
      cbn [orb]. cbn [trim_start].
      destruct (is_white_space c2) eqn:W2.
      * rewrite (white_space_not_hex c2 W2). reflexivity.
      * unfold strip_sign.
        destruct (c2 =? "-")%char eqn:M2;
          [apply Ascii.eqb_eq in M2; subst c2; reflexivity|].
        destruct (c2 =? "+")%char eqn:P2;
          [apply Ascii.eqb_eq in P2; subst c2; reflexivity|].
        rewrite (parse_single false c2).
        destruct (digit_of 16 c2) as [d2|] eqn:D2; [|reflexivity].
        pose proof (digit_of_range 16 c2 d2 D2). apply Z.mod_small. lia.
    + cbn [orb]. unfold strip_sign.
      destruct (c1 =? "-")%char eqn:M1.
      * apply Ascii.eqb_eq in M1. subst c1. cbn [Ascii.eqb Bool.eqb].
        rewrite (parse_single true c2).
        destruct (digit_of 16 c2); reflexivity.
      * destruct (c1 =? "+")%char eqn:P1.
        -- rewrite (parse_single false c2).
           destruct (digit_of 16 c2) as [d2|] eqn:D2; [|reflexivity].
           pose proof (digit_of_range 16 c2 d2 D2). apply Z.mod_small. lia.
        -- destruct (c1 =? "0")%char eqn:Z1;
             [apply Ascii.eqb_eq in Z1; subst c1; discriminate D1|].
           cbn [andb take_digits]. rewrite D1. cbn [fst to_uint8].
           destruct (digit_of 16 c2); reflexivity.
Qed.

Lemma append_assoc (a b c : string) : (a ++ b) ++ c = a ++ (b ++ c).
Proof. induction a as [|x a IH]; cbn; [reflexivity|rewrite IH; reflexivity]. Qed.

Lemma drop_append (pre rest : string) :
  drop (String.length pre) (pre ++ rest) = rest.
Proof. induction pre as [|x pre IH]; [destruct rest; reflexivity|exact IH]. Qed.

Lemma store_at_beyond (v : Z) (l : list Z) (i : nat) :
  (List.length l <= i)%nat -> store_at i v l = l.
Proof.
  revert i. induction l as [|h t IH]; intros i Hi; [destruct i; reflexivity|].
  destruct i as [|j]; cbn in Hi; [lia|].
  cbn [store_at]. rewrite IH by lia. reflexivity.
Qed.

Lemma store_at_middle (v x : Z) (done t : list Z) :
  store_at (List.length done) v (done ++ x :: t)%list = (done ++ v :: t)%list.
Proof. induction done as [|h done IH]; cbn; [reflexivity|rewrite IH; reflexivity]. Qed.

(** Past the end of the string the loop is over, whatever is left of the
    iteration budget. *)
Lemma hexToBytes_loop_over (fuel : nat) (hex : string) (i : Z) (bytes : list Z) :
  strlen hex <= 2 * i -> hexToBytes_loop fuel hex i bytes = bytes.
Proof.
  intros H. destruct fuel; cbn [hexToBytes_loop]; [reflexivity|].
  replace (2 * i <? strlen hex) with false; [reflexivity|].
  symmetry. apply Z.ltb_ge. exact H.
Qed.

(** The loop of [hexToBytes], entered after the groups of [pre] have been
    stored in [done], stores the groups of the rest. *)
Lemma hexToBytes_loop_groups (fuel : nat) :
  forall (rest pre : string) (done : list Z),
    (String.length rest <= fuel)%nat ->
    String.length pre = (2 * List.length done)%nat ->
    hexToBytes_loop fuel (pre ++ rest) (Z.of_nat (List.length done))
      (done ++ repeat 0 (Nat.div2 (String.length rest)))%list
    = (done ++ Spec.group_bytes rest)%list.
Proof.
  induction fuel as [|fuel IH]; intros rest pre done Hfuel Hpre.
  - destruct rest; [reflexivity|cbn in Hfuel; lia].
  - assert (Hlen : strlen (pre ++ rest)
                   = 2 * Z.of_nat (List.length done)
                     + Z.of_nat (String.length rest)).
    { unfold strlen. rewrite length_append, Hpre. lia. }
    destruct rest as [|c1 [|c2 rest]].
    + apply hexToBytes_loop_over. cbn [String.length] in Hlen. lia.
    + (* one character left: its store falls outside the array *)
      cbn [hexToBytes_loop String.length Nat.div2 repeat Spec.group_bytes] in *.
      replace (2 * Z.of_nat (List.length done) <? strlen (pre ++ String c1 ""))
        with true by (symmetry; apply Z.ltb_lt; lia).
      unfold store.
      replace (Z.of_nat (List.length done) <? 0) with false
        by (symmetry; apply Z.ltb_ge; lia).
      rewrite Nat2Z.id, store_at_beyond by (rewrite app_nil_r; lia).
      apply hexToBytes_loop_over. lia.
    + cbn [hexToBytes_loop String.length Nat.div2 repeat Spec.group_bytes] in *.
      replace (2 * Z.of_nat (List.length done)
               <? strlen (pre ++ String c1 (String c2 rest)))
        with true by (symmetry; apply Z.ltb_lt; lia).
      assert (Hsub : substr (pre ++ String c1 (String c2 rest))
                       (Z.of_nat (List.length done) * 2) 2
                     = String c1 (String c2 "")).
      { unfold substr.
        replace (Z.of_nat (List.length done) * 2 <? 0) with false
          by (symmetry; apply Z.ltb_ge; lia).
        rewrite Hlen. rewrite Z.min_l by lia. rewrite Z.min_l by lia.
        replace (Z.to_nat (Z.of_nat (List.length done) * 2))
          with (String.length pre) by lia.
        rewrite drop_append. reflexivity. }
      rewrite Hsub. unfold store.
      replace (Z.of_nat (List.length done) <? 0) with false
        by (symmetry; apply Z.ltb_ge; lia).
      rewrite Nat2Z.id, store_at_middle, parse_group.
      specialize (IH rest (pre ++ String c1 (String c2 ""))
                    (done ++ [Spec.group_byte c1 c2])%list).
      rewrite append_assoc, length_append, length_app in IH.
      cbn [append String.length List.length] in IH.
      replace (Z.of_nat (List.length done + 1))
        with (Z.of_nat (List.length done) + 1) in IH by lia.
      rewrite <- !app_assoc in IH. cbn [app] in IH.
      apply IH; lia.
Qed.

Lemma half_length (s : string) :
  Z.to_nat (strlen s / 2) = Nat.div2 (String.length s).
Proof.
  unfold strlen. rewrite Nat.div2_div.
  change 2 with (Z.of_nat 2). rewrite <- Nat2Z.inj_div. apply Nat2Z.id.
Qed.

(** [hexToBytes] reads its argument two characters at a time. *)
Lemma hexToBytes_groups (hex : string) : hexToBytes hex = Spec.group_bytes hex.
Proof.
  unfold hexToBytes, Uint8Array_new. rewrite half_length.
  exact (hexToBytes_loop_groups (String.length hex) hex "" []
           (Nat.le_refl _) eq_refl).
Qed.

(** Induction on a string, two characters at a time. *)
Lemma string_pair_ind (P : string -> Prop) :
  P "" -> (forall c, P (String c "")) ->
  (forall c1 c2 r, P r -> P (String c1 (String c2 r))) ->
  forall s, P s.
Proof.
  intros H0 H1 H2 s.
  assert (H : P s /\ forall c, P (String c s)); [|exact (proj1 H)].
  induction s as [|x s [IHa IHb]]; split; auto.
Qed.

Lemma group_bytes_length (s : string) :
  List.length (Spec.group_bytes s) = Nat.div2 (String.length s).
Proof.
  induction s as [|c|c1 c2 r IH] using string_pair_ind; try reflexivity.
  cbn [Spec.group_bytes List.length String.length Nat.div2].
  rewrite IH. reflexivity.
Qed.

Lemma group_bytes_nth (i : nat) :
  forall (s : string) (c1 c2 : ascii),
    get (2 * i) s = Some c1 -> get (2 * i + 1) s = Some c2 ->
    nth_error (Spec.group_bytes s) i = Some (Spec.group_byte c1 c2).
Proof.
  induction i as [|i IH]; intros s c1 c2 H1 H2.
  - destruct s as [|x [|y r]]; cbn in H1, H2; try discriminate.
    injection H1 as <-. injection H2 as <-. reflexivity.
  - replace (2 * S i)%nat with (S (S (2 * i))) in * by lia.
    destruct s as [|x [|y r]]; cbn [get Nat.add] in H1, H2; try discriminate.
    cbn [Spec.group_bytes nth_error]. apply IH; assumption.
Qed.

Lemma group_byte_range (c1 c2 : ascii) : 0 <= Spec.group_byte c1 c2 < 256.
Proof.
  unfold Spec.group_byte.
  destruct (digit_of 16 c1) as [d1|] eqn:D1;
    destruct (digit_of 16 c2) as [d2|] eqn:D2;
    try (pose proof (digit_of_range 16 c1 d1 D1));
    try (pose proof (digit_of_range 16 c2 d2 D2)); try lia.
  destruct (is_white_space c1 || (c1 =? "+")%char); [lia|].
  destruct (c1 =? "-")%char; [|lia].
  apply Z.mod_pos_bound. lia.
Qed.

Lemma group_bytes_range (s : string) :
  Forall (fun b => 0 <= b < 256) (Spec.group_bytes s).
Proof.
  induction s as [|c|c1 c2 r IH] using string_pair_ind;
    cbn [Spec.group_bytes]; constructor; [apply group_byte_range|exact IH].
Qed.

Lemma group_bytes_trailing (s : string) (c : ascii) :
  Nat.even (String.length s) = true ->
  Spec.group_bytes (s ++ String c "") = Spec.group_bytes s.
Proof.
  induction s as [|x|c1 c2 r IH] using string_pair_ind; intros He.
  - reflexivity.
  - discriminate He.
  - cbn [append Spec.group_bytes]. rewrite IH; [reflexivity|exact He].
Qed.

(** C5, as the code has it: [hexToBytes] takes the string alone, the
    byte count being half its length, and raises nothing.  It returns
    [floor(length / 2)] bytes, each in [0..255]; a group in which no
    hexadecimal digit can be read gives the byte 0, and the last character
    of a string of odd length is dropped. *)
Theorem hexToBytes_never_fails (hex : string) :
  List.length (hexToBytes hex) = Nat.div2 (String.length hex) /\
  Forall (fun b => 0 <= b < 256) (hexToBytes hex) /\
  (forall c1 c2, digit_of 16 c1 = None -> digit_of 16 c2 = None ->
                 hexToBytes (String c1 (String c2 "")) = [0]) /\
  (forall c, Nat.even (String.length hex) = true ->
             hexToBytes (hex ++ String c "") = hexToBytes hex).
Proof.
  split; [|split; [|split]].
  - rewrite hexToBytes_groups. apply group_bytes_length.
  - rewrite hexToBytes_groups. apply group_bytes_range.
  - intros c1 c2 D1 D2. rewrite hexToBytes_groups.
    cbn [Spec.group_bytes]. unfold Spec.group_byte. rewrite D1, D2. reflexivity.
  - intros c He. rewrite !hexToBytes_groups. apply group_bytes_trailing, He.
Qed.

Lemma hexToBytes_never_fails_witness :
  hexToBytes ("abcd" ++ "e") = hexToBytes "abcd" /\
  hexToBytes "zz" = [0].
Proof.
  destruct (hexToBytes_never_fails "abcd") as (_ & _ & _ & H).
  destruct (hexToBytes_never_fails "") as (_ & _ & H0 & _).
  split; [apply H; reflexivity | apply H0; reflexivity].
Defined.

(** C5 fails as stated: a group that is not base-16 and a string of odd
    length are both accepted, and bytes are returned. *)
Lemma hexToBytes_invalid_input_accepted :
  hexToBytes "zz" = [0] /\ hexToBytes "abc" = [171].
Proof. vm_compute. split; reflexivity. Qed.

(** C10, as the code has it: on a string of even length, [hexToBytes]
    returns [length / 2] bytes, and byte [i] is the byte of the group at
    offset [2 * i]: the base-16 value of two hexadecimal digits, and for any
    other group what [parseInt] reads in it (see [Spec.group_byte]), which
    is 0 only when it reads no digit.  No error is reported. *)
Theorem hexToBytes_even_length (hex : string) :
  Nat.even (String.length hex) = true ->
  List.length (hexToBytes hex) = (String.length hex / 2)%nat /\
  (forall i c1 c2,
      get (2 * i) hex = Some c1 -> get (2 * i + 1) hex = Some c2 ->
      nth_error (hexToBytes hex) i = Some (Spec.group_byte c1 c2)) /\
  (forall c1 c2 d1 d2,
      digit_of 16 c1 = Some d1 -> digit_of 16 c2 = Some d2 ->
      Spec.group_byte c1 c2 = d1 * 16 + d2).
Proof.
  intros _. split; [|split].
  - rewrite hexToBytes_groups, group_bytes_length. apply Nat.div2_div.
  - intros i c1 c2 H1 H2. rewrite hexToBytes_groups.
    apply group_bytes_nth; assumption.
  - intros c1 c2 d1 d2 D1 D2. unfold Spec.group_byte.
    rewrite D1, D2. reflexivity.
Qed.

Lemma hexToBytes_even_length_witness :
  List.length (hexToBytes "bce3") = (String.length "bce3" / 2)%nat /\
  nth_error (hexToBytes "bce3") 1 = Some (Spec.group_byte "e" "3").
Proof.
  destruct (hexToBytes_even_length "bce3" eq_refl) as (Hl & Hn & _).
  split; [exact Hl|]. apply (Hn 1%nat); reflexivity.
Defined.

(** C10 fails as stated: a group that is not base-16 does not always
    give 0. *)
Lemma hexToBytes_lenient_groups :
  hexToBytes "1g" = [1] /\ hexToBytes "-1" = [255] /\ hexToBytes " f" = [15].
Proof. vm_compute. repeat split; reflexivity. Qed.

(** ** Decimal digits of an integer *)

(** With enough of it, the iteration budget of [decimal_loop] does not
    matter, and the digits come out in front of the accumulator. *)
Lemma decimal_loop_any (k : nat) :
  forall (f1 f2 : nat) (n : Z) (acc : string),
    0 <= n < 2 ^ Z.of_nat k ->
    n < 2 ^ Z.of_nat (S f1) -> n < 2 ^ Z.of_nat (S f2) ->
    decimal_loop (S f1) n acc = decimal_loop (S f2) n "" ++ acc.
Proof.
  induction k as [|k IH]; intros f1 f2 n acc Hk H1 H2;
    cbn [decimal_loop]; destruct (Z.ltb_spec n 10) as [Hs|Hb];
    try reflexivity.
  - cbn in Hk. lia.
  - assert (Hdiv : 0 <= n / 10 < 2 ^ Z.of_nat k).
    { split; [apply Z.div_pos; lia|].
      apply Z.div_lt_upper_bound; [lia|].
      rewrite Nat2Z.inj_succ, Z.pow_succ_r in Hk by lia. lia. }
    assert (Hf : forall f, n < 2 ^ Z.of_nat (S f) ->
                 exists f', f = S f' /\ n / 10 < 2 ^ Z.of_nat (S f')).
    { intros [|f'] Hf; [cbn in Hf; lia|].
      exists f'. split; [reflexivity|].
      apply Z.div_lt_upper_bound; [lia|].
      rewrite (Nat2Z.inj_succ (S f')), Z.pow_succ_r in Hf by lia. lia. }
    destruct (Hf f1 H1) as (g1 & -> & Hg1).
    destruct (Hf f2 H2) as (g2 & -> & Hg2).
    rewrite (IH g1 g2 (n / 10) _ Hdiv Hg1 Hg2).
    rewrite (IH g2 g2 (n / 10) (String _ "") Hdiv Hg2 Hg2).
    rewrite append_assoc. reflexivity.
Qed.

Lemma decimal_small (n : Z) :
  0 <= n < 10 -> decimal n = String (digit_char n) "".
Proof.
  intros Hn. unfold decimal. cbn [decimal_loop].
  rewrite Z.mod_small by lia.
  replace (n <? 10) with true by (symmetry; apply Z.ltb_lt; lia).
  reflexivity.
Qed.

Lemma decimal_step (n : Z) :
  10 <= n -> decimal n = decimal (n / 10) ++ String (digit_char (n mod 10)) "".
Proof.
  intros Hn. unfold decimal.
  assert (Hq : 1 <= n / 10) by (apply Z.div_le_lower_bound; lia).
  destruct (Z.log2_spec n ltac:(lia)) as [Hl1 Hl2].
  destruct (Z.log2_spec (n / 10) ltac:(lia)) as [Hq1 Hq2].
  pose proof (Z.log2_nonneg (n / 10)) as Hq0.
  assert (Hl3 : 3 <= Z.log2 n).
  { change 3 with (Z.log2 8). apply Z.log2_le_mono. lia. }
  cbn [decimal_loop].
  replace (n <? 10) with false by (symmetry; apply Z.ltb_ge; lia).
  destruct (Z.to_nat (Z.log2 n)) as [|f] eqn:Ef; [lia|].
  apply (decimal_loop_any (Z.to_nat (Z.log2 n))).
  - split; [lia|].
    apply Z.div_lt_upper_bound; [lia|].
    rewrite Z2Nat.id by lia.
    rewrite Z.pow_succ_r in Hl2 by lia. lia.
  - apply Z.div_lt_upper_bound; [lia|].
    replace (Z.of_nat (S f)) with (Z.log2 n) by lia.
    rewrite Z.pow_succ_r in Hl2 by lia. lia.
  - rewrite Nat2Z.inj_succ, Z2Nat.id by lia. lia.
Qed.

(** Induction along the digits of a non-negative integer. *)
Lemma decimal_ind (P : Z -> Prop) :
  (forall n, 0 <= n < 10 -> P n) ->
  (forall n, 10 <= n -> P (n / 10) -> P n) ->
  forall n, 0 <= n -> P n.
Proof.
  intros Hs Hb n Hn. generalize Hn. pattern n.
  apply Z_lt_induction; [|exact Hn].
  clear n Hn. intros n IH Hn.
  destruct (Z_lt_le_dec n 10) as [Hlt|Hge].
  - apply Hs. lia.
  - assert (Hq : 0 <= n / 10 < n).
    { split; [apply Z.div_pos; lia|apply Z.div_lt; lia]. }
    apply Hb; [exact Hge|]. apply IH; lia.
Qed.

Lemma digit_char_decimal (d : Z) :
  0 <= d < 10 -> digit_of 10 (digit_char d) = Some d.
Proof.
  intros Hd.
  assert (Hn : (Z.to_nat d < 10)%nat) by lia.
  rewrite <- (Z2Nat.id d) by lia.
  revert Hn. generalize (Z.to_nat d). intros n Hn.
  do 10 (destruct n as [|n]; [reflexivity|]). lia.
Qed.

Lemma dec_number_append (a b : string) (acc : Z) :
  Spec.dec_number (a ++ b) acc = Spec.dec_number b (Spec.dec_number a acc).
Proof.
  revert acc. induction a as [|c a IH]; intros acc; [reflexivity|].
  cbn [append Spec.dec_number]. apply IH.
Qed.

(** [decimal n] is a string of decimal digits whose value is [n], with as
    many digits as [n] needs. *)
Lemma decimal_digits (n : Z) :
  0 <= n ->
  Spec.all_chars Spec.is_decimal (decimal n) = true /\
  Spec.dec_number (decimal n) 0 = n /\
  n < 10 ^ strlen (decimal n) /\
  (0 < n -> 10 ^ (strlen (decimal n) - 1) <= n).
Proof.
  intros Hn. pattern n. apply decimal_ind; [| |exact Hn]; clear n Hn.
  - intros n Hn. rewrite decimal_small by exact Hn.
    cbn [Spec.all_chars Spec.dec_number]. unfold Spec.is_decimal, Spec.dec_digit.
    rewrite digit_char_decimal by exact Hn.
    change (strlen (String (digit_char n) "")) with 1.
    cbn. lia.
  - intros n Hn (IHa & IHv & IHu & IHl).
    rewrite decimal_step by exact Hn.
    pose proof (Z.mod_pos_bound n 10 ltac:(lia)) as Hm.
    assert (Hq : 0 < n / 10) by (apply Z.div_str_pos; lia).
    assert (Hlen : strlen (decimal (n / 10) ++ String (digit_char (n mod 10)) "")
                   = strlen (decimal (n / 10)) + 1).
    { unfold strlen. rewrite length_append. cbn [String.length]. lia. }
    assert (Hl0 : 0 <= strlen (decimal (n / 10))) by (unfold strlen; lia).
    rewrite Hlen.
    split; [|split; [|split]].
    + rewrite all_chars_append, IHa. cbn [Spec.all_chars andb].
      unfold Spec.is_decimal. rewrite digit_char_decimal by exact Hm.
      reflexivity.
    + rewrite dec_number_append, IHv. cbn [Spec.dec_number].
      unfold Spec.dec_digit. rewrite digit_char_decimal by exact Hm.
      pose proof (Z.div_mod n 10 ltac:(lia)). lia.
    + rewrite Z.pow_add_r, Z.pow_1_r by lia.
      pose proof (Z.div_mod n 10 ltac:(lia)). lia.
    + intros _. replace (strlen (decimal (n / 10)) + 1 - 1)
        with (Z.succ (strlen (decimal (n / 10)) - 1)) by lia.
      specialize (IHl Hq).
      assert (0 <= strlen (decimal (n / 10)) - 1).
      { destruct (decimal (n / 10)) eqn:E;
          [|unfold strlen; cbn [String.length]; lia].
        cbn in IHv. lia. }
      rewrite Z.pow_succ_r by lia.
      pose proof (Z.div_mod n 10 ltac:(lia)). lia.
Qed.

Lemma append_empty_r (s : string) : s ++ "" = s.
Proof. induction s as [|c r IH]; cbn; [reflexivity|rewrite IH; reflexivity]. Qed.

Lemma zeros_snoc (t : nat) : zeros t ++ "0" = zeros (S t).
Proof. induction t as [|t IH]; cbn; [reflexivity|rewrite IH; reflexivity]. Qed.

Lemma decimal_mul_pow10 (n : Z) (t : nat) :
  0 < n -> decimal (n * 10 ^ Z.of_nat t) = decimal n ++ zeros t.
Proof.
  intros Hn. induction t as [|t IH].
  - rewrite Z.mul_1_r. symmetry. apply append_empty_r.
  - rewrite Nat2Z.inj_succ, Z.pow_succ_r by lia.
    assert (Hp : 0 < 10 ^ Z.of_nat t) by (apply Z.pow_pos_nonneg; lia).
    replace (n * (10 * 10 ^ Z.of_nat t)) with (n * 10 ^ Z.of_nat t * 10) by ring.
    rewrite decimal_step by nia.
    rewrite Z.div_mul, Z.mod_mul by lia.
    rewrite IH, append_assoc. change (String (digit_char 0) "") with "0".
    rewrite zeros_snoc. reflexivity.
Qed.

(** ** Number to string, on integers *)

(** An integer below [2^60] reads back as the integer [n < 2^53] only if
    it is [n]. *)
Lemma is_fin_int (y n : Z) :
  0 <= y < 2 ^ 60 -> 0 <= n < 2 ^ 53 ->
  is_fin (round_ratio (y * U) 1) (n * U) = (y =? n).
Proof.
  intros Hy Hn. pose proof U_pos as HU.
  assert (H60 : 2 ^ 53 < 2 ^ 60) by reflexivity.
  destruct (Z_le_gt_dec y (2 ^ 53)) as [Hs|Hb].
  - rewrite round_ratio_of_Z by lia. unfold of_Z, is_fin.
    destruct (Z.eqb_spec y n) as [->|Hne]; [apply Z.eqb_refl|].
    apply Z.eqb_neq. intros E. apply Z.mul_reg_r in E; lia.
  - unfold round_ratio.
    replace (y * U <? 0) with false by (symmetry; apply Z.ltb_ge; nia).
    destruct (round_pos_big (y * U)) as (u & -> & Hu).
    + split; [nia|]. unfold U in *.
      apply Z.lt_le_trans with (2 ^ 60 * 2 ^ 1074); [nia|].
      rewrite <- Z.pow_add_r by lia. apply Z.pow_le_mono_r; lia.
    + unfold is_fin.
      replace (y =? n) with false by (symmetry; apply Z.eqb_neq; lia).
      apply Z.eqb_neq. nia.
Qed.

Lemma position_up_digits (n : Z) (fuel : nat) :
  forall j, 1 <= j -> 10 ^ (j - 1) <= n -> n < 10 ^ (j - 1 + Z.of_nat fuel) ->
  exists L, position_up fuel (n * U) (10 ^ j * U) j = L /\
            j <= L /\ 10 ^ (L - 1) <= n < 10 ^ L.
Proof.
  pose proof U_pos as HU.
  induction fuel as [|fuel IH]; intros j Hj Hlo Hhi.
  - rewrite Z.add_0_r in Hhi. lia.
  - cbn [position_up].
    destruct (Z.ltb_spec (n * U) (10 ^ j * U)) as [Hlt|Hge].
    + exists j. split; [reflexivity|]. split; [lia|]. split; [exact Hlo|nia].
    + replace (10 * (10 ^ j * U)) with (10 ^ (j + 1) * U)
        by (rewrite Z.pow_add_r by lia; ring).
      destruct (IH (j + 1)) as (L & HL & HjL & Hb).
      * lia.
      * replace (j + 1 - 1) with j by lia. nia.
      * replace (j + 1 - 1 + Z.of_nat fuel) with (j - 1 + Z.of_nat (S fuel)) by lia.
        exact Hhi.
      * exists L. split; [exact HL|]. split; [lia|exact Hb].
Qed.

Lemma pow10_16 : 2 ^ 53 < 10 ^ 16.
Proof. reflexivity. Qed.

Lemma position_int (n : Z) :
  1 <= n < 2 ^ 53 ->
  exists L, position (n * U) = L /\ 1 <= L <= 16 /\ 10 ^ (L - 1) <= n < 10 ^ L.
Proof.
  intros Hn. pose proof U_pos as HU. pose proof pow10_16 as H16.
  unfold position.
  replace (U <=? n * U) with true by (symmetry; apply Z.leb_le; nia).
  destruct (position_up_digits n 400 1) as (L & HL & HjL & Hb).
  - lia.
  - cbn. lia.
  - apply Z.lt_le_trans with (10 ^ 16); [lia|].
    apply Z.pow_le_mono_r; lia.
  - change (10 ^ 1 * U) with (10 * U) in HL.
    exists L. split; [exact HL|]. split; [|exact Hb].
    split; [lia|].
    assert (L - 1 < 16); [|lia].
    apply (Z.pow_lt_mono_r_iff 10); lia.
Qed.

Section IntegerDigits.

(** An integer [n] below [2^53], of at most [L <= 16] digits. *)
Variables n L : Z.
Hypothesis Hn : 1 <= n < 2 ^ 53.
Hypothesis HL : n < 10 ^ L.
Hypothesis H16 : L <= 16.

(** With [k] digits, [n] is written exactly or not at all. *)
Lemma digits_at_int (k : Z) :
  1 <= k <= L ->
  digits_at (n * U) L k
  = if n mod 10 ^ (L - k) =? 0 then Some (n / 10 ^ (L - k)) else None.
Proof.
  intros Hk. pose proof U_pos as HU.
  unfold digits_at, reads_back.
  rewrite (Z.max_l 0 (k - L)), (Z.max_r 0 (L - k)) by lia.
  rewrite Z.pow_0_r, Z.mul_1_r.
  set (p := 10 ^ (L - k)).
  assert (Hp : 0 < p) by (apply Z.pow_pos_nonneg; lia).
  assert (Hp15 : p <= 10 ^ 15) by (apply Z.pow_le_mono_r; lia).
  assert (H15 : 2 ^ 53 + 10 ^ 15 < 2 ^ 60) by reflexivity.
  replace (n * U / (U * p)) with (n / p)
    by (rewrite (Z.mul_comm n U), Z.div_mul_cancel_l by lia; reflexivity).
  pose proof (Z.div_mod n p ltac:(lia)) as Hdm.
  pose proof (Z.mod_pos_bound n p Hp) as Hm.
  assert (Hq : 0 <= n / p) by (apply Z.div_pos; lia).
  replace (n / p * U * p) with (n / p * p * U) by ring.
  replace ((n / p + 1) * U * p) with ((n / p + 1) * p * U) by ring.
  rewrite !is_fin_int by nia.
  replace ((n / p + 1) * p =? n) with false
    by (symmetry; apply Z.eqb_neq; nia).
  destruct (Z.eqb_spec (n mod p) 0) as [E|NE].
  - replace (n / p * p =? n) with true by (symmetry; apply Z.eqb_eq; nia).
    reflexivity.
  - replace (n / p * p =? n) with false by (symmetry; apply Z.eqb_neq; nia).
    reflexivity.
Qed.

(** The search stops at a number of digits that writes [n] exactly. *)
Lemma shortest_digits_int (fuel : nat) :
  forall k, 1 <= k <= L -> L - k < Z.of_nat fuel ->
  exists k' s, shortest_digits fuel (n * U) L k = (k', s) /\
               k <= k' <= L /\ s * 10 ^ (L - k') = n.
Proof.
  induction fuel as [|fuel IH]; intros k Hk Hf; [cbn in Hf; lia|].
  cbn [shortest_digits]. rewrite digits_at_int by assumption.
  destruct (Z.eqb_spec (n mod 10 ^ (L - k)) 0) as [E|NE].
  - exists k, (n / 10 ^ (L - k)). split; [reflexivity|]. split; [lia|].
    assert (Hp : 0 < 10 ^ (L - k)) by (apply Z.pow_pos_nonneg; lia).
    pose proof (Z.div_mod n (10 ^ (L - k)) ltac:(lia)). lia.
  - assert (k < L).
    { destruct (Z.eq_dec k L) as [->|]; [|lia].
      rewrite Z.sub_diag, Z.pow_0_r, Z.mod_1_r in NE. congruence. }
    destruct (IH (k + 1)) as (k' & s & E & Hk' & Hs); [lia|lia|].
    exists k', s. split; [exact E|]. split; [lia|exact Hs].
Qed.

End IntegerDigits.

(** An integer below [2^53] is written with its decimal digits. *)
Lemma number_to_string_int (n : Z) :
  0 <= n < 2 ^ 53 -> number_to_string (of_Z n) = decimal n.
Proof.
  intros Hn. destruct (Z.eq_dec n 0) as [->|Hnz]; [reflexivity|].
  pose proof U_pos as HU.
  unfold number_to_string, of_Z.
  replace (n * U =? 0) with false by (symmetry; apply Z.eqb_neq; nia).
  replace (n * U <? 0) with false by (symmetry; apply Z.ltb_ge; nia).
  rewrite Z.abs_eq by nia.
  destruct (position_int n ltac:(lia)) as (L & -> & HL & Hb).
  destruct (shortest_digits_int n L ltac:(lia) ltac:(lia) ltac:(lia) 17 1
              ltac:(lia) ltac:(lia)) as (k & s & -> & Hk & Hs).
  assert (Hp : 0 < 10 ^ (L - k)) by (apply Z.pow_pos_nonneg; lia).
  assert (Hs0 : 0 < s) by nia.
  assert (Hsk : s < 10 ^ k).
  { assert (E : 10 ^ L = 10 ^ k * 10 ^ (L - k))
      by (rewrite <- Z.pow_add_r by lia; f_equal; lia).
    nia. }
  replace (s =? 10 ^ k) with false by (symmetry; apply Z.eqb_neq; lia).
  unfold layout.
  replace ((k <=? L) && (L <=? 21)) with true
    by (symmetry; apply andb_true_intro; split; apply Z.leb_le; lia).
  cbn [append].
  rewrite <- decimal_mul_pow10 by exact Hs0.
  rewrite Z2Nat.id by lia. rewrite Hs. reflexivity.
Qed.

(** ** The seed combiner *)

(** C9, on the nonces JavaScript writes out digit by digit: for every
    pair of strings and every integer nonce from 0 to [2^53 - 1], [combine]
    is the client seed, the server seed and the decimal digits of the nonce,
    with nothing in between; [combine("a", "b", 0)] is ["ab0"]. *)
Theorem combine_concatenates (c s : string) (n : Z) :
  0 <= n < 2 ^ 53 ->
  combine c s (of_Z n) = c ++ s ++ decimal n /\
  combine "a" "b" (of_Z 0) = "ab0".
Proof.
  intros Hn. split; [|reflexivity].
  unfold combine. rewrite number_to_string_int by exact Hn.
  apply append_assoc.
Qed.

Lemma combine_concatenates_witness :
  combine "client" "server" (of_Z 42) = "client" ++ "server" ++ decimal 42.
Proof.
  apply (combine_concatenates "client" "server" 42). 
  split; [lia|reflexivity].
Defined.

(** C9 fails as stated on large nonces: [10^21] and [2^60] are Numbers,
    but from [10^21] on the nonce is written with an exponent, and already
    above [2^53] only its shortest identifying digits are written, padded
    with zeros. *)
Lemma combine_large_nonce :
  is_number (of_Z (10 ^ 21)) = true /\
  is_number (of_Z (2 ^ 60)) = true /\
  combine "a" "b" (of_Z (10 ^ 21)) = "ab1e+21" /\
  combine "a" "b" (of_Z (2 ^ 60)) = "ab1152921504606847000" /\
  decimal (2 ^ 60) = "1152921504606846976".
Proof. vm_compute. repeat split; reflexivity. Qed.

(** ** Reading decimal literals *)

(** A decimal digit is no white space, no sign, and not the [I] of
    [Infinity]. *)
Lemma decimal_not_special (c : ascii) :
  Spec.is_decimal c = true ->
  is_white_space c = false /\ (c =? "-")%char = false /\
  (c =? "+")%char = false /\ c <> "I"%char.
Proof.
  each_ascii c; intros H; vm_compute in H; try discriminate H;
    repeat split; try reflexivity; discriminate.
Qed.

Lemma take_digits_decimal (a rest : string) :
  Spec.all_chars Spec.is_decimal a = true ->
  match rest with
  | String c _ => digit_of 10 c = None
  | EmptyString => True
  end ->
  take_digits 10 (a ++ rest)
  = (map Spec.dec_digit (list_ascii_of_string a), rest).
Proof.
  intros Ha Hr. induction a as [|c a IH].
  - destruct rest as [|x r]; [reflexivity|].
    cbn [append take_digits list_ascii_of_string map]. rewrite Hr. reflexivity.
  - cbn [Spec.all_chars] in Ha. apply andb_prop in Ha. destruct Ha as [Hc Ha].
    cbn [append take_digits list_ascii_of_string map]. rewrite (IH Ha).
    unfold Spec.is_decimal in Hc.
    destruct (digit_of 10 c) as [d|] eqn:E; [|discriminate].
    replace (Spec.dec_digit c) with d
      by (unfold Spec.dec_digit; rewrite E; reflexivity).
    reflexivity.
Qed.

Lemma fold_dec_digits (s : string) (acc : Z) :
  fold_left (fun a d => a * 10 + d)
            (map Spec.dec_digit (list_ascii_of_string s)) acc
  = Spec.dec_number s acc.
Proof.
  revert acc. induction s as [|c r IH]; intros acc; [reflexivity|].
  cbn [list_ascii_of_string map fold_left Spec.dec_number]. apply IH.
Qed.

Lemma length_chars (s : string) :
  List.length (list_ascii_of_string s) = String.length s.
Proof. induction s as [|c r IH]; cbn; [reflexivity|rewrite IH; reflexivity]. Qed.

(** [parseFloat] on digits, a point, digits: the Number nearest to the
    numeral made of all the digits, scaled down by one power of ten for
    each digit after the point. *)
Lemma parseFloat_fixed_point (a b : string) :
  a <> "" ->
  Spec.all_chars Spec.is_decimal a = true ->
  Spec.all_chars Spec.is_decimal b = true ->
  parseFloat (a ++ String "." b)
  = round_pos (Spec.dec_number (a ++ b) 0 * U) (10 ^ strlen b).
Proof.
  intros Hne Ha Hb. destruct a as [|c a]; [congruence|].
  pose proof Ha as Ha'. cbn [Spec.all_chars] in Ha'.
  apply andb_prop in Ha'. destruct Ha' as [Hc _].
  destruct (decimal_not_special c Hc) as (Hw & Hm & Hp & HI).
  unfold parseFloat. cbn [append trim_start]. rewrite Hw.
  unfold strip_sign. rewrite Hm, Hp.
  assert (Hpre : prefix "Infinity" (String c (a ++ String "." b)) = false).
  { cbn [prefix]. destruct (ascii_dec "I" c) as [E|NE]; [congruence|reflexivity]. }
  rewrite Hpre.
  change (String c (a ++ String "." b)) with (String c a ++ String "." b).
  rewrite (take_digits_decimal (String c a) (String "." b) Ha eq_refl).
  cbn [Ascii.eqb Bool.eqb].
  pose proof (take_digits_decimal b "" Hb I) as Tb.
  rewrite append_empty_r in Tb. rewrite Tb.
  cbn [list_ascii_of_string map app exponent_part].
  rewrite length_map, length_chars.
  fold (strlen b).
  assert (Hl : 0 <= strlen b) by (unfold strlen; lia).
  rewrite Z.sub_0_l, Z.opp_involutive.
  rewrite (Z.max_l 0 (- strlen b)), (Z.max_r 0 (strlen b)) by lia.
  rewrite Z.pow_0_r, Z.mul_1_r.
  unfold digits_value.
  change (Spec.dec_digit c :: (map Spec.dec_digit (list_ascii_of_string a)
                               ++ map Spec.dec_digit (list_ascii_of_string b))%list)
    with ((map Spec.dec_digit (list_ascii_of_string (String c a))
           ++ map Spec.dec_digit (list_ascii_of_string b))%list).
  rewrite fold_left_app, !fold_dec_digits, <- dec_number_append.
  unfold round_ratio.
  replace (Spec.dec_number (String c a ++ b) 0 * U <? 0) with false;
    [reflexivity|].
  symmetry. apply Z.ltb_ge.
  pose proof U_pos. 
  assert (0 <= Spec.dec_number (String c a ++ b) 0); [|nia].
  clear. generalize (String c a ++ b). intros s.
  assert (H : forall acc, 0 <= acc -> 0 <= Spec.dec_number s acc); [|apply H; lia].
  induction s as [|x s IH]; intros acc Hacc; cbn [Spec.dec_number]; [exact Hacc|].
  apply IH. unfold Spec.dec_digit.
  destruct (digit_of 10 x) as [d|] eqn:E; [|lia].
  pose proof (digit_of_range 10 x d E). lia.
Qed.

(** ** Rounding within the unit interval *)

Lemma rne_le_int (a B N : Z) :
  0 < B -> 0 <= a <= B * N -> rne a B <= N.
Proof.
  intros HB [Ha HaN].
  assert (Hq : a / B <= N) by (apply Z.div_le_upper_bound; lia).
  destruct (Z.eq_dec (a / B) N) as [E|NE].
  - pose proof (Z.div_mod a B ltac:(lia)) as Hdm.
    pose proof (Z.mod_pos_bound a B HB) as Hm.
    assert (Hm0 : a mod B = 0) by nia.
    rewrite rne_exact by assumption. lia.
  - pose proof (rne_bounds a B). lia.
Qed.

(** A value between 0 and 1 is rounded to a Number between 0 and 1. *)
Lemma round_pos_unit (a b : Z) :
  0 < b -> 0 <= a <= b * U ->
  exists u, round_pos a b = Fin u /\ 0 <= u <= U.
Proof.
  intros Hb [Ha HaU]. pose proof U_pos as HU. unfold round_pos.
  assert (Hq : 0 <= a / b <= U).
  { split; [apply Z.div_pos; lia|apply Z.div_le_upper_bound; lia]. }
  assert (Hl : Z.log2 (a / b) <= 1074).
  { replace 1074 with (Z.log2 U) by (unfold U; apply Z.log2_pow2; lia).
    apply Z.log2_le_mono. lia. }
  set (s := Z.max 0 (Z.log2 (a / b) - 52)).
  assert (Hs : 0 <= s <= 1022) by lia.
  assert (Hps : 0 < 2 ^ s) by (apply Z.pow_pos_nonneg; lia).
  assert (HUs : U = 2 ^ (1074 - s) * 2 ^ s).
  { unfold U. rewrite <- Z.pow_add_r by lia. f_equal. lia. }
  assert (HN : 0 < 2 ^ (1074 - s)) by (apply Z.pow_pos_nonneg; lia).
  assert (Hm1 : rne a (b * 2 ^ s) <= 2 ^ (1074 - s)).
  { apply rne_le_int; [nia|]. split; [lia|]. rewrite HUs in HaU. lia. }
  assert (Hm0 : 0 <= rne a (b * 2 ^ s)).
  { pose proof (rne_bounds a (b * 2 ^ s)) as [Hr _].
    assert (0 <= a / (b * 2 ^ s)) by (apply Z.div_pos; nia). lia. }
  set (m := rne a (b * 2 ^ s)) in *.
  assert (Hu : 0 <= m * 2 ^ s <= U) by (rewrite HUs; nia).
  replace (m * 2 ^ s <? HUGE) with true.
  - exists (m * 2 ^ s). split; [reflexivity|exact Hu].
  - symmetry. apply Z.ltb_lt. rewrite HUGE_eq.
    assert (1 < 2 ^ 1024) by reflexivity. nia.
Qed.

(** ** The float projector *)

Lemma take_drop (j : nat) (s : string) : take j s ++ drop j s = s.
Proof.
  revert s. induction j as [|j IH]; intros [|c r]; cbn; try reflexivity.
  rewrite IH. reflexivity.
Qed.

Lemma length_drop (j : nat) (s : string) :
  String.length (drop j s) = (String.length s - j)%nat.
Proof.
  revert s. induction j as [|j IH]; intros [|c r]; cbn; try reflexivity.
  apply IH.
Qed.

Lemma all_chars_drop (P : ascii -> bool) (j : nat) (s : string) :
  Spec.all_chars P s = true -> Spec.all_chars P (drop j s) = true.
Proof.
  revert s. induction j as [|j IH]; intros [|c r]; cbn; try (intros; assumption).
  intros H. apply andb_prop in H. destruct H as [_ Hr]. apply IH, Hr.
Qed.

Lemma zeros_digits (z : nat) :
  Spec.all_chars Spec.is_decimal (zeros z) = true /\
  Spec.dec_number (zeros z) 0 = 0 /\ String.length (zeros z) = z.
Proof.
  induction z as [|z (Ha & Hv & Hl)]; cbn; [repeat split|].
  rewrite Ha, Hl. repeat split. exact Hv.
Qed.

Lemma dec_number_range (s : string) (acc : Z) :
  0 <= acc ->
  0 <= Spec.dec_number s acc < (acc + 1) * 10 ^ strlen s.
Proof.
  revert acc. unfold strlen.
  induction s as [|c r IH]; intros acc Hacc; cbn [Spec.dec_number String.length].
  - rewrite Z.pow_0_r. lia.
  - assert (Hc : 0 <= Spec.dec_digit c < 10).
    { unfold Spec.dec_digit. destruct (digit_of 10 c) as [d|] eqn:E; [|lia].
      apply (digit_of_range 10 c d E). }
    specialize (IH (acc * 10 + Spec.dec_digit c) ltac:(lia)).
    rewrite Nat2Z.inj_succ, Z.pow_succ_r by lia.
    assert (0 < 10 ^ Z.of_nat (String.length r)) by (apply Z.pow_pos_nonneg; lia).
    nia.
Qed.

Lemma join_digits (bytes : list Z) :
  Forall (fun b => 0 <= b < 256) bytes ->
  Spec.all_chars Spec.is_decimal (join bytes "") = true.
Proof.
  induction 1 as [|b t Hb _ IH]; [reflexivity|].
  destruct (decimal_digits b ltac:(lia)) as (Hd & _).
  cbn [join]. destruct t as [|b' t]; [exact Hd|].
  cbn [append]. rewrite all_chars_append, Hd, IH. reflexivity.
Qed.

(** The float before rounding to [precision] digits: a Number within
    [0..1]. *)
Lemma raw_float_unit (bytes : list Z) :
  Forall (fun b => 0 <= b < 256) bytes ->
  exists u, parseFloat ("0." ++ join bytes "") = Fin u /\ 0 <= u <= U.
Proof.
  intros Hb. pose proof (join_digits bytes Hb) as Hd.
  change ("0." ++ join bytes "") with ("0" ++ String "." (join bytes "")).
  rewrite parseFloat_fixed_point by (try discriminate; try reflexivity; exact Hd).
  apply round_pos_unit.
  - apply Z.pow_pos_nonneg; [lia|unfold strlen; lia].
  - pose proof U_pos as HU.
    change ("0" ++ join bytes "") with (String "0" (join bytes "")).
    cbn [Spec.dec_number].
    change (0 * 10 + Spec.dec_digit "0") with 0.
    pose proof (dec_number_range (join bytes "") 0 ltac:(lia)) as Hr.
    nia.
Qed.

(** [toFixed] on a Number within [0..1], read back by [parseFloat]:
    again a Number within [0..1], and 0 or 1 when no digit is kept. *)
Lemma toFixed_unit (u : Z) (fd : number) (f : Z) :
  0 <= u <= U -> to_integer fd = Some f -> 0 <= f <= 100 ->
  exists str v,
    toFixed (Fin u) fd = Normal str /\ parseFloat str = Fin v /\
    0 <= v <= U /\ (f = 0 -> v = 0 \/ v = U).
Proof.
  intros Hu Hf Hr. pose proof U_pos as HU.
  unfold toFixed. rewrite Hf.
  replace ((f <? 0) || (100 <? f)) with false
    by (symmetry; apply orb_false_iff; split; apply Z.ltb_ge; lia).
  rewrite Z.abs_eq by lia.
  assert (H21 : 1 < 10 ^ 21) by reflexivity.
  replace (10 ^ 21 * U <=? u) with false by (symmetry; apply Z.leb_gt; nia).
  replace (u <? 0) with false by (symmetry; apply Z.ltb_ge; lia).
  assert (Hpf : 0 < 10 ^ f) by (apply Z.pow_pos_nonneg; lia).
  set (n := (2 * u * 10 ^ f + U) / (2 * U)).
  assert (Hn : 0 <= n <= 10 ^ f).
  { split; [apply Z.div_pos; nia|].
    assert (n < 10 ^ f + 1); [|lia].
    apply Z.div_lt_upper_bound; nia. }
  destruct (Z.eqb_spec f 0) as [->|Hf0].
  - (* no digit after the point: "0" or "1" *)
    change (10 ^ 0) with 1 in Hn.
    assert (Hn01 : n = 0 \/ n = 1) by lia.
    destruct Hn01 as [-> | ->].
    + exists "0", 0. split; [reflexivity|].
      split; [vm_compute; reflexivity|]. split; [lia|]. intros _. left. reflexivity.
    + exists "1", U. split; [reflexivity|].
      split; [vm_compute; reflexivity|]. split; [lia|]. intros _. right. reflexivity.
  - destruct (decimal_digits n ltac:(lia)) as (Hda & Hdv & _).
    set (z := Z.to_nat (f + 1 - strlen (decimal n))).
    destruct (zeros_digits z) as (Hza & Hzv & Hzl).
    set (m := zeros z ++ decimal n).
    assert (Hma : Spec.all_chars Spec.is_decimal m = true)
      by (unfold m; rewrite all_chars_append, Hza, Hda; reflexivity).
    assert (Hmv : Spec.dec_number m 0 = n)
      by (unfold m; rewrite dec_number_append, Hzv; exact Hdv).
    assert (Hml : f + 1 <= strlen m).
    { unfold m, strlen. rewrite length_append, Hzl. unfold z, strlen. lia. }
    set (j := Z.to_nat (strlen m - f)).
    assert (Hj : (1 <= j <= String.length m)%nat) by (unfold j, strlen in *; lia).
    exists ("" ++ (take j m ++ "." ++ drop j m)).
    cbn [append].
    assert (Hb : strlen (drop j m) = f).
    { unfold strlen. rewrite length_drop. unfold j, strlen in *. lia. }
    assert (Hparse : parseFloat (take j m ++ String "." (drop j m))
                     = round_pos (n * U) (10 ^ f)).
    { rewrite parseFloat_fixed_point.
      - rewrite take_drop, Hmv, Hb. reflexivity.
      - intros E. apply (f_equal String.length) in E.
        rewrite length_take in E. cbn in E. lia.
      - apply all_chars_take, Hma.
      - apply all_chars_drop, Hma. }
    destruct (round_pos_unit (n * U) (10 ^ f) Hpf ltac:(nia)) as (v & Hv & Hvr).
    exists v. split; [reflexivity|]. rewrite Hparse.
    split; [exact Hv|]. split; [exact Hvr|]. intros E. contradiction.
Qed.

Lemma byteGenerator_range (c s : string) (n : number) :
  Forall (fun b => 0 <= b < 256) (byteGenerator c s n).
Proof.
  unfold byteGenerator. rewrite hexToBytes_groups. apply group_bytes_range.
Qed.

(** C8, as the code has it: for every client seed, server seed and
    nonce, and every precision from 0 to 100, [generateFloats] returns a
    Number in the closed interval from 0 to 1 (rounding to [precision]
    digits can give exactly 1); at precision 0 it is exactly 0 or exactly 1.
    A precision above 100 raises [RangeError]. *)
Theorem generateFloats_unit_interval
  (c s : string) (n : number) (precision : Z) :
  (0 <= precision <= 100 ->
   exists u,
     generateFloats c s n (Some (of_Z precision)) = Normal (Fin u) /\
     0 <= u <= U /\
     (precision = 0 -> u = 0 \/ u = U)) /\
  (100 < precision ->
   generateFloats c s n (Some (of_Z precision)) = Throw RangeError).
Proof.
  split.
  - intros Hp. unfold generateFloats.
    destruct (raw_float_unit (byteGenerator c s n) (byteGenerator_range c s n))
      as (u0 & -> & Hu0).
    destruct (toFixed_unit u0 (of_Z precision) precision Hu0
                (to_integer_of_Z precision) Hp)
      as (str & v & -> & Hv & Hvr & Hv0).
    cbn [bind]. exists v. rewrite Hv. split; [reflexivity|].
    split; [exact Hvr|exact Hv0].
  - intros Hp. unfold generateFloats, toFixed.
    rewrite to_integer_of_Z.
    replace (100 <? precision) with true by (symmetry; apply Z.ltb_lt; lia).
    rewrite orb_true_r. reflexivity.
Qed.

Lemma generateFloats_unit_interval_witness :
  (exists u,
      generateFloats "a" "b" (of_Z 0) (Some (of_Z 0)) = Normal (Fin u) /\
      0 <= u <= U /\ (0 = 0 -> u = 0 \/ u = U)) /\
  generateFloats "a" "b" (of_Z 0) (Some (of_Z 101)) = Throw RangeError.
Proof.
  destruct (generateFloats_unit_interval "a" "b" (of_Z 0) 0) as [H _].
  destruct (generateFloats_unit_interval "a" "b" (of_Z 0) 101) as [_ H'].
  split; [apply H; lia | apply H'; lia].
Defined.

(** C8 fails as stated: at precision 1 the seeds ["a"], ["b"] and the
    nonce 17 give exactly 1, which is outside the half-open interval. *)
Lemma generateFloats_rounds_to_one :
  generateFloats "a" "b" (of_Z 17) (Some (of_Z 1)) = Normal (of_Z 1).
Proof.
  unfold generateFloats. cbv zeta. rewrite raw_float_a_b_17.
  vm_compute. reflexivity.
Qed.
(* ================================================================== *)
(** * Further properties of the library *)
(* ================================================================== *)

(** ** The digest, its bytes and their hexadecimal form *)

Lemma hex_char_lower (d : Z) :
  0 <= d < 16 -> Spec.is_lower_hex (Crypto.hex_char d) = true.
Proof.
  intros Hd.
  assert (Hn : (Z.to_nat d < 16)%nat) by lia.
  rewrite <- (Z2Nat.id d) by lia.
  revert Hn. generalize (Z.to_nat d). intros n Hn.
  do 16 (destruct n as [|n]; [reflexivity|]). lia.
Qed.

Lemma hex_digits_lower (n : nat) (x : Z) :
  Spec.all_chars Spec.is_lower_hex (Crypto.hex_digits n x) = true.
Proof.
  induction n as [|n IH]; cbn [Crypto.hex_digits Spec.all_chars];
    [reflexivity|].
  rewrite IH, andb_true_r. apply hex_char_lower.
  apply Z.mod_pos_bound. lia.
Qed.

Lemma sha512_lower (str : string) :
  Spec.all_chars Spec.is_lower_hex (sha512 str) = true.
Proof.
  unfold sha512, Crypto.createHash_sha512_hex, Crypto.hex_of_hash.
  repeat rewrite all_chars_append.
  repeat rewrite hex_digits_lower. reflexivity.
Qed.

(** X1: the digest that [sha512] returns is a string of exactly 128
    characters (the comment in the source speaks of 256), each a decimal
    digit or a lowercase letter from [a] to [f]. *)
Theorem sha512_lowercase_hex (str : string) :
  String.length (sha512 str) = 128%nat /\
  Spec.all_chars Spec.is_lower_hex (sha512 str) = true.
Proof. split; [apply sha512_format | apply sha512_lower]. Qed.

(** A lowercase hexadecimal digit is the digit of its own value. *)
Lemma lower_hex_nibble (c : ascii) :
  Spec.is_lower_hex c = true ->
  digit_of 16 c = Some (Spec.nibble c) /\
  Crypto.hex_char (Spec.nibble c) = c.
Proof. each_ascii c; intros H; try discriminate H; split; reflexivity. Qed.

Lemma hex_group_byte (c1 c2 : ascii) :
  Spec.is_hex c1 = true -> Spec.is_hex c2 = true ->
  Spec.group_byte c1 c2 = Spec.nibble c1 * 16 + Spec.nibble c2.
Proof.
  unfold Spec.is_hex, Spec.group_byte, Spec.nibble.
  destruct (digit_of 16 c1); [|discriminate].
  destruct (digit_of 16 c2); [|discriminate]. reflexivity.
Qed.

Lemma lower_hex_is_hex (c : ascii) :
  Spec.is_lower_hex c = true -> Spec.is_hex c = true.
Proof.
  intros H. unfold Spec.is_hex.
  rewrite (proj1 (lower_hex_nibble c H)). reflexivity.
Qed.

(** The two hexadecimal digits of a byte. *)
Lemma hex_digits_byte (d1 d2 : Z) :
  0 <= d1 < 16 -> 0 <= d2 < 16 ->
  Crypto.hex_digits 2 (d1 * 16 + d2)
  = String (Crypto.hex_char d1) (String (Crypto.hex_char d2) "").
Proof.
  intros H1 H2. cbn [Crypto.hex_digits Z.of_nat].
  change (16 ^ Z.pos (Pos.of_succ_nat 0)) with 16. change (16 ^ 0) with 1.
  rewrite Z.div_1_r.
  replace ((d1 * 16 + d2) / 16) with d1
    by (apply Z.div_unique with d2; lia).
  replace ((d1 * 16 + d2) mod 16) with d2
    by (apply Z.mod_unique with d1; lia).
  rewrite Z.mod_small by lia. reflexivity.
Qed.

(** Bytes written in hexadecimal, as [Buffer.prototype.toString('hex')]
    writes them, are read back by [hexToBytes]. *)
Lemma group_bytes_hex_digits (bytes : list Z) :
  Forall (fun b => 0 <= b < 256) bytes ->
  Spec.group_bytes (concat "" (map (Crypto.hex_digits 2) bytes)) = bytes /\
  String.length (concat "" (map (Crypto.hex_digits 2) bytes))
  = (2 * List.length bytes)%nat.
Proof.
  induction 1 as [|b l Hb _ [IHv IHl]]; [split; reflexivity|].
  assert (E : concat "" (map (Crypto.hex_digits 2) (b :: l))
              = Crypto.hex_digits 2 b
                ++ concat "" (map (Crypto.hex_digits 2) l)).
  { cbn [map concat]. destruct (map (Crypto.hex_digits 2) l) eqn:El.
    - cbn [concat]. rewrite append_empty_r. reflexivity.
    - reflexivity. }
  rewrite E.
  rewrite (Z.div_mod b 16) by lia. rewrite (Z.mul_comm 16).
  assert (H1 : 0 <= b / 16 < 16)
    by (split; [apply Z.div_pos; lia | apply Z.div_lt_upper_bound; lia]).
  assert (H2 : 0 <= b mod 16 < 16) by (apply Z.mod_pos_bound; lia).
  rewrite hex_digits_byte by assumption.
  cbn [append Spec.group_bytes String.length].
  split.
  - rewrite IHv. f_equal. unfold Spec.group_byte.
    rewrite !hex_char_digit by assumption. reflexivity.
  - rewrite IHl. cbn [List.length]. lia.
Qed.

(** Conversely, the bytes read from lowercase hexadecimal digits are
    written back as the same digits. *)
Lemma hex_digits_group_bytes (s : string) :
  Spec.all_chars Spec.is_lower_hex s = true ->
  Nat.even (String.length s) = true ->
  concat "" (map (Crypto.hex_digits 2) (Spec.group_bytes s)) = s.
Proof.
  induction s as [|c|c1 c2 r IH] using string_pair_ind; intros Ha He.
  - reflexivity.
  - discriminate He.
  - cbn [Spec.all_chars] in Ha.
    apply andb_true_iff in Ha. destruct Ha as [Hc1 Ha].
    apply andb_true_iff in Ha. destruct Ha as [Hc2 Ha].
    cbn [Spec.group_bytes map].
    assert (E : forall x l, concat "" (x :: l) = x ++ concat "" l).
    { intros x [|y l]; cbn [concat];
        [rewrite append_empty_r|]; reflexivity. }
    rewrite E, IH by assumption.
    rewrite hex_group_byte by (apply lower_hex_is_hex; assumption).
    rewrite hex_digits_byte by apply nibble_range.
    rewrite (proj2 (lower_hex_nibble c1 Hc1)), (proj2 (lower_hex_nibble c2 Hc2)).
    reflexivity.
Qed.

(** X2: [byteGenerator] always returns exactly 32 bytes, each from 0 to
    255, and they are the first half of the digest of the combined input:
    written in hexadecimal they give back its first 64 characters. *)
Theorem byteGenerator_half_digest (c s : string) (n : number) :
  List.length (byteGenerator c s n) = 32%nat /\
  Forall (fun b => 0 <= b < 256) (byteGenerator c s n) /\
  concat "" (map (Crypto.hex_digits 2) (byteGenerator c s n))
  = slice (sha512 (combine c s n)) 0 64.
Proof.
  unfold byteGenerator. cbv zeta.
  pose proof (proj1 (sha512_format (combine c s n))) as Hl.
  pose proof (sha512_lower (combine c s n)) as Ha.
  generalize dependent (sha512 (combine c s n)). intros hash Hl Ha.
  rewrite hexToBytes_groups.
  rewrite slice_prefix by (unfold strlen; rewrite Hl; lia).
  change (Z.to_nat 64) with 64%nat.
  assert (Hl64 : String.length (take 64 hash) = 64%nat)
    by (rewrite length_take, Hl; reflexivity).
  split; [|split].
  - rewrite group_bytes_length, Hl64. reflexivity.
  - apply group_bytes_range.
  - apply hex_digits_group_bytes.
    + apply all_chars_take. exact Ha.
    + rewrite Hl64. reflexivity.
Qed.

(** X3: the server seed is the hexadecimal form of the random bytes, two
    lowercase digits a byte: 512 characters for the 256 bytes requested
    (the comment in the source speaks of 256), and [hexToBytes] recovers
    exactly those bytes from it. *)
Theorem generateServerSeed_round_trip (randomBytes : nat -> list Z) :
  List.length (randomBytes 256%nat) = 256%nat ->
  Forall (fun b => 0 <= b < 256) (randomBytes 256%nat) ->
  String.length (generateServerSeed randomBytes) = 512%nat /\
  Spec.all_chars Spec.is_lower_hex (generateServerSeed randomBytes) = true /\
  hexToBytes (generateServerSeed randomBytes) = randomBytes 256%nat.
Proof.
  intros Hlen Hrange. unfold generateServerSeed.
  generalize dependent (randomBytes 256%nat). intros bytes Hlen Hrange.
  destruct (group_bytes_hex_digits bytes Hrange) as [Hv Hl].
  split; [|split].
  - rewrite Hl, Hlen. reflexivity.
  - clear. induction bytes as [|b l IH]; [reflexivity|].
    replace (concat "" (map (Crypto.hex_digits 2) (b :: l)))
      with (Crypto.hex_digits 2 b ++ concat "" (map (Crypto.hex_digits 2) l)).
    + rewrite all_chars_append, hex_digits_lower, IH. reflexivity.
    + cbn [map concat]. destruct (map (Crypto.hex_digits 2) l);
        [cbn [concat]; rewrite append_empty_r|]; reflexivity.
  - rewrite hexToBytes_groups. exact Hv.
Qed.

Lemma generateServerSeed_round_trip_witness :
  let randomBytes := fun k : nat => repeat 171 k in
  String.length (generateServerSeed randomBytes) = 512%nat /\
  Spec.all_chars Spec.is_lower_hex (generateServerSeed randomBytes) = true /\
  hexToBytes (generateServerSeed randomBytes) = randomBytes 256%nat.
Proof.
  apply (generateServerSeed_round_trip (fun k : nat => repeat 171 k)).
  - reflexivity.
  - apply Forall_forall. intros b Hb. apply repeat_spec in Hb. lia.
Defined.

(** [hexToBytes] of a concatenation, when the first part has an even
    number of characters. *)
Lemma group_bytes_append (a b : string) :
  Nat.even (String.length a) = true ->
  Spec.group_bytes (a ++ b) = (Spec.group_bytes a ++ Spec.group_bytes b)%list.
Proof.
  induction a as [|x|c1 c2 r IH] using string_pair_ind; intros He.
  - reflexivity.
  - discriminate He.
  - cbn [append Spec.group_bytes app]. rewrite IH; [reflexivity|exact He].
Qed.

(** X4: [hexToBytes] works group by group.  On a string with an even
    number of characters followed by any other string, it returns the bytes
    of the first followed by the bytes of the second; one more character in
    between joins the second string's groups, which are then cut one
    character earlier. *)
Theorem hexToBytes_append (a b : string) :
  Nat.even (String.length a) = true ->
  hexToBytes (a ++ b) = (hexToBytes a ++ hexToBytes b)%list /\
  (forall c, hexToBytes ((a ++ String c "") ++ b)
             = (hexToBytes a ++ hexToBytes (String c b))%list).
Proof.
  intros He. split.
  - rewrite !hexToBytes_groups. apply group_bytes_append, He.
  - intros c. rewrite !hexToBytes_groups, append_assoc.
    cbn [append]. apply group_bytes_append, He.
Qed.

Lemma hexToBytes_append_witness :
  hexToBytes ("ff00" ++ "a1") = (hexToBytes "ff00" ++ hexToBytes "a1")%list /\
  (forall c, hexToBytes (("ff00" ++ String c "") ++ "a1")
             = (hexToBytes "ff00" ++ hexToBytes (String c "a1"))%list).
Proof.
  apply (hexToBytes_append "ff00" "a1"). reflexivity.
Defined.

(** Calls whose seeds and nonce combine to the same string draw the same
    bytes, integers and floats. *)
Lemma combined_input_outputs (c s c' s' : string) (n n' : number) :
  combine c s n = combine c' s' n' ->
  byteGenerator c s n = byteGenerator c' s' n' /\
  (forall min max,
     generateInteger c s n min max = generateInteger c' s' n' min max) /\
  (forall precision,
     generateFloats c s n precision = generateFloats c' s' n' precision).
Proof.
  intros H. unfold generateFloats, generateInteger, byteGenerator.
  rewrite H. repeat split.
Qed.

(** The first four bytes of half a digest, read as one big-endian
    number, are its 32-bit prefix. *)
Lemma prefix_four_bytes (hash : string) :
  Spec.hex_string 128 hash ->
  exists b0 b1 b2 b3 rest,
    hexToBytes (slice hash 0 64) = b0 :: b1 :: b2 :: b3 :: rest /\
    Spec.uint32_prefix hash = ((b0 * 256 + b1) * 256 + b2) * 256 + b3.
Proof.
  intros [Hl Ha].
  rewrite slice_prefix by (unfold strlen; rewrite Hl; lia).
  rewrite hexToBytes_groups. change (Z.to_nat 64) with 64%nat.
  destruct hash as [|c0 [|c1 [|c2 [|c3 [|c4 [|c5 [|c6 [|c7 r]]]]]]]];
    try discriminate Hl.
  cbn [Spec.all_chars] in Ha.
  repeat (apply andb_true_iff in Ha;
          let H := fresh "Hc" in destruct Ha as [H Ha]).
  cbn [take Spec.group_bytes].
  do 4 eexists. exists (Spec.group_bytes (take 56 r)).
  split; [reflexivity|].
  unfold Spec.uint32_prefix. cbn [take Spec.hex_number].
  rewrite !hex_group_byte by assumption. lia.
Qed.

(** On ranges that are computed exactly, [generateInteger] is the 32-bit
    prefix modulo the size of the range, plus [min]. *)
Lemma generateInteger_exact (c s : string) (n : number) (min max : Z) :
  - 2 ^ 53 < min -> min <= max -> max < 2 ^ 53 -> max - min < 2 ^ 53 ->
  generateInteger c s n (of_Z min) (of_Z max)
  = of_Z (Spec.uint32_prefix (sha512 (combine c s n)) mod (max - min + 1)
          + min).
Proof.
  intros Hmin Hle Hmax Hsmall.
  destruct (digest_prefix_parse (combine c s n)) as [Hparse Hv].
  unfold generateInteger. rewrite Hparse.
  generalize dependent (Spec.uint32_prefix (sha512 (combine c s n))).
  intros v _ Hv.
  assert (Hmod : 0 <= v mod (max - min + 1) < max - min + 1)
    by (apply Z.mod_pos_bound; lia).
  rewrite sub_of_Z by lia. rewrite add_of_Z by lia.
  rewrite rem_of_Z by lia. rewrite Z.abs_eq by lia.
  apply add_of_Z. lia.
Qed.

(** ** Integers and bytes from the same digest *)

(** X5: [generateInteger] and [byteGenerator] (hence [generateFloats],
    [generateBool] and [selectRandomObject]) read the same characters of the
    same digest: the integer drawn for a range is the first four bytes of
    [byteGenerator], taken as one big-endian 32-bit number, modulo the size
    of the range, plus [min]. *)
Theorem generateInteger_first_four_bytes
  (c s : string) (n : number) (min max : Z) :
  - 2 ^ 53 < min -> min <= max -> max < 2 ^ 53 -> max - min < 2 ^ 53 ->
  exists b0 b1 b2 b3 rest,
    byteGenerator c s n = b0 :: b1 :: b2 :: b3 :: rest /\
    generateInteger c s n (of_Z min) (of_Z max)
    = of_Z ((((b0 * 256 + b1) * 256 + b2) * 256 + b3) mod (max - min + 1)
            + min).
Proof.
  intros Hmin Hle Hmax Hsmall.
  rewrite generateInteger_exact by assumption.
  unfold byteGenerator. cbv zeta.
  destruct (prefix_four_bytes (sha512 (combine c s n)) (sha512_format _))
    as (b0 & b1 & b2 & b3 & rest & Hb & Hv).
  exists b0, b1, b2, b3, rest. split; [exact Hb|].
  rewrite Hv. reflexivity.
Qed.

Lemma generateInteger_first_four_bytes_witness :
  exists b0 b1 b2 b3 rest,
    byteGenerator "a" "b" (of_Z 0) = b0 :: b1 :: b2 :: b3 :: rest /\
    generateInteger "a" "b" (of_Z 0) (of_Z 1) (of_Z 6)
    = of_Z ((((b0 * 256 + b1) * 256 + b2) * 256 + b3) mod (6 - 1 + 1) + 1).
Proof.
  apply (generateInteger_first_four_bytes "a" "b" (of_Z 0) 1 6); lia.
Defined.

(** X6: bounds that are not finite.  When [min] or [max] is [NaN] (what
    an argument left out becomes in the arithmetic), [generateInteger]
    returns [NaN].  With [max] infinite the remainder leaves the 32-bit
    prefix as it is, and the result is the prefix plus [min]. *)
Theorem generateInteger_non_finite (c s : string) (n : number) :
  (forall max, generateInteger c s n NaN max = NaN) /\
  (forall min, generateInteger c s n min NaN = NaN) /\
  (forall min, - 2 ^ 52 <= min <= 2 ^ 52 ->
     generateInteger c s n (of_Z min) (Infinity false)
     = of_Z (Spec.uint32_prefix (sha512 (combine c s n)) + min)).
Proof.
  destruct (digest_prefix_parse (combine c s n)) as [Hparse Hv].
  unfold generateInteger. rewrite Hparse.
  generalize dependent (Spec.uint32_prefix (sha512 (combine c s n))).
  intros v _ Hv.
  split; [|split].
  - intros max. unfold sub. cbn [neg]. rewrite add_NaN_r. reflexivity.
  - intros min. unfold sub. cbn [add rem of_Z]. reflexivity.
  - intros min Hmin. unfold sub. cbn [add rem of_Z neg]. fold (of_Z v).
    fold (of_Z min). apply add_of_Z.
    assert (2 ^ 32 < 2 ^ 52) by reflexivity.
    assert (2 * 2 ^ 52 = 2 ^ 53) by reflexivity. lia.
Qed.

Lemma generateInteger_non_finite_witness :
  generateInteger "a" "b" (of_Z 0) (of_Z 5) (Infinity false)
  = of_Z (Spec.uint32_prefix (sha512 (combine "a" "b" (of_Z 0))) + 5).
Proof.
  apply (generateInteger_non_finite "a" "b" (of_Z 0)).
  split; [apply Z.leb_le | apply Z.leb_le]; reflexivity.
Defined.

(** ** What [combine] does not keep apart *)

(** X7: [combine] puts nothing between its parts, so the boundary
    between the client seed and the server seed is lost: moving any
    characters from the end of the one to the start of the other leaves the
    combined string, and with it every byte, integer and float drawn, as it
    was. *)
Theorem combine_seed_boundary (a b c : string) (n : number) :
  combine (a ++ b) c n = combine a (b ++ c) n /\
  byteGenerator (a ++ b) c n = byteGenerator a (b ++ c) n /\
  (forall min max,
     generateInteger (a ++ b) c n min max
     = generateInteger a (b ++ c) n min max) /\
  (forall precision,
     generateFloats (a ++ b) c n precision
     = generateFloats a (b ++ c) n precision).
Proof.
  assert (H : combine (a ++ b) c n = combine a (b ++ c) n).
  { unfold combine. rewrite (append_assoc a b c). reflexivity. }
  split; [exact H|]. apply combined_input_outputs, H.
Qed.

(** X8: nor is the nonce kept apart from the server seed.  A nonce of
    two digits or more draws what the nonce made of its last digit draws
    for the server seed followed by its other digits. *)
Theorem combine_nonce_boundary (c s : string) (n d : Z) :
  1 <= n -> 0 <= d < 10 -> 10 * n + d < 2 ^ 53 ->
  combine c s (of_Z (10 * n + d)) = combine c (s ++ decimal n) (of_Z d) /\
  byteGenerator c s (of_Z (10 * n + d))
  = byteGenerator c (s ++ decimal n) (of_Z d) /\
  (forall min max,
     generateInteger c s (of_Z (10 * n + d)) min max
     = generateInteger c (s ++ decimal n) (of_Z d) min max) /\
  (forall precision,
     generateFloats c s (of_Z (10 * n + d)) precision
     = generateFloats c (s ++ decimal n) (of_Z d) precision).
Proof.
  intros Hn Hd Hb.
  assert (H53 : 10 < 2 ^ 53) by reflexivity.
  assert (H : combine c s (of_Z (10 * n + d))
              = combine c (s ++ decimal n) (of_Z d)).
  { unfold combine.
    rewrite !number_to_string_int by lia.
    rewrite decimal_step by lia.
    replace ((10 * n + d) / 10) with n
      by (apply Z.div_unique with d; lia).
    replace ((10 * n + d) mod 10) with d
      by (apply Z.mod_unique with n; lia).
    rewrite (decimal_small d) by lia.
    rewrite !append_assoc. reflexivity. }
  split; [exact H|]. apply combined_input_outputs, H.
Qed.

Lemma combine_nonce_boundary_witness :
  combine "a" "b" (of_Z (10 * 12 + 3)) = combine "a" ("b" ++ decimal 12) (of_Z 3) /\
  byteGenerator "a" "b" (of_Z (10 * 12 + 3))
  = byteGenerator "a" ("b" ++ decimal 12) (of_Z 3) /\
  (forall min max,
     generateInteger "a" "b" (of_Z (10 * 12 + 3)) min max
     = generateInteger "a" ("b" ++ decimal 12) (of_Z 3) min max) /\
  (forall precision,
     generateFloats "a" "b" (of_Z (10 * 12 + 3)) precision
     = generateFloats "a" ("b" ++ decimal 12) (of_Z 3) precision).
Proof.
  apply (combine_nonce_boundary "a" "b" 12 3); [lia | lia | reflexivity].
Defined.

(** ** The float projector: rounding and errors *)

(** [toFixed] on a Number within [0..1], read back by [parseFloat]: the
    Number nearest to [k / 10^f], where [k] is the integer nearest to the
    argument times [10^f], the larger one on a tie. *)
Lemma toFixed_grid (u : Z) (fd : number) (f : Z) :
  0 <= u <= U -> to_integer fd = Some f -> 0 <= f <= 100 ->
  let k := (2 * u * 10 ^ f + U) / (2 * U) in
  0 <= k <= 10 ^ f /\
  exists str,
    toFixed (Fin u) fd = Normal str /\
    parseFloat str = round_pos (k * U) (10 ^ f).
Proof.
  intros Hu Hf Hr k. pose proof U_pos as HU.
  assert (Hpf : 0 < 10 ^ f) by (apply Z.pow_pos_nonneg; lia).
  assert (Hk : 0 <= k <= 10 ^ f).
  { unfold k. split; [apply Z.div_pos; nia|].
    assert ((2 * u * 10 ^ f + U) / (2 * U) < 10 ^ f + 1); [|lia].
    apply Z.div_lt_upper_bound; nia. }
  split; [exact Hk|].
  unfold toFixed. rewrite Hf.
  replace ((f <? 0) || (100 <? f)) with false
    by (symmetry; apply orb_false_iff; split; apply Z.ltb_ge; lia).
  rewrite Z.abs_eq by lia.
  assert (H21 : 1 < 10 ^ 21) by reflexivity.
  replace (10 ^ 21 * U <=? u) with false by (symmetry; apply Z.leb_gt; nia).
  replace (u <? 0) with false by (symmetry; apply Z.ltb_ge; lia).
  fold k. clearbody k.
  destruct (Z.eqb_spec f 0) as [->|Hf0].
  - change (10 ^ 0) with 1 in *.
    assert (Hk01 : k = 0 \/ k = 1) by lia.
    destruct Hk01 as [-> | ->].
    + exists "0". split; [reflexivity|]. vm_compute. reflexivity.
    + exists "1". split; [reflexivity|]. vm_compute. reflexivity.
  - destruct (decimal_digits k ltac:(lia)) as (Hda & Hdv & _).
    set (z := Z.to_nat (f + 1 - strlen (decimal k))).
    destruct (zeros_digits z) as (Hza & Hzv & Hzl).
    set (m := zeros z ++ decimal k).
    assert (Hma : Spec.all_chars Spec.is_decimal m = true)
      by (unfold m; rewrite all_chars_append, Hza, Hda; reflexivity).
    assert (Hmv : Spec.dec_number m 0 = k)
      by (unfold m; rewrite dec_number_append, Hzv; exact Hdv).
    assert (Hml : f + 1 <= strlen m).
    { unfold m, strlen. rewrite length_append, Hzl. unfold z, strlen. lia. }
    set (j := Z.to_nat (strlen m - f)).
    assert (Hj : (1 <= j <= String.length m)%nat) by (unfold j, strlen in *; lia).
    exists ("" ++ (take j m ++ "." ++ drop j m)).
    split; [reflexivity|]. cbn [append].
    assert (Hb : strlen (drop j m) = f).
    { unfold strlen. rewrite length_drop. unfold j, strlen in *. lia. }
    rewrite parseFloat_fixed_point.
    + rewrite take_drop, Hmv, Hb. reflexivity.
    + intros E. apply (f_equal String.length) in E.
      rewrite length_take in E. cbn in E. lia.
    + apply all_chars_take, Hma.
    + apply all_chars_drop, Hma.
Qed.

(** X9: at a precision whose integer part [f] is from 0 to 100,
    [generateFloats] returns a decimal of at most [f] digits after the
    point, as a Number: with [u] the float read from the bytes, it is the
    Number nearest to [k / 10^f], where [k], from 0 to [10^f], is the integer
    nearest to [u * 10^f] (the larger one on a tie).  A fractional
    precision counts as its integer part and [NaN] as 0. *)
Theorem generateFloats_decimal_grid
  (c s : string) (n precision : number) (f : Z) :
  to_integer precision = Some f -> 0 <= f <= 100 ->
  exists u,
    parseFloat ("0." ++ join (byteGenerator c s n) "") = Fin u /\
    0 <= u <= U /\
    let k := (2 * u * 10 ^ f + U) / (2 * U) in
    0 <= k <= 10 ^ f /\
    generateFloats c s n (Some precision)
    = Normal (round_pos (k * U) (10 ^ f)).
Proof.
  intros Hf Hr. unfold generateFloats.
  destruct (raw_float_unit (byteGenerator c s n) (byteGenerator_range c s n))
    as (u & Hraw & Hu).
  exists u. split; [exact Hraw|]. split; [exact Hu|].
  rewrite Hraw.
  destruct (toFixed_grid u precision f Hu Hf Hr) as (Hk & str & -> & Hp).
  cbv zeta. split; [exact Hk|]. cbn [bind]. rewrite Hp. reflexivity.
Qed.

Lemma generateFloats_decimal_grid_witness :
  exists u,
    parseFloat ("0." ++ join (byteGenerator "a" "b" (of_Z 0)) "") = Fin u /\
    0 <= u <= U /\
    let k := (2 * u * 10 ^ 2 + U) / (2 * U) in
    0 <= k <= 10 ^ 2 /\
    generateFloats "a" "b" (of_Z 0) (Some (parseFloat "2.5"))
    = Normal (round_pos (k * U) (10 ^ 2)).
Proof.
  apply (generateFloats_decimal_grid "a" "b" (of_Z 0) (parseFloat "2.5") 2).
  - vm_compute. reflexivity.
  - lia.
Defined.

(** X10: [generateFloats] raises [RangeError], the only error of the
    library, exactly when the integer part of the precision is below 0 or
    above 100, or the precision is infinite; with the precision left out it
    never does. *)
Theorem generateFloats_RangeError (c s : string) (n precision : number) :
  (generateFloats c s n (Some precision) = Throw RangeError <->
   match to_integer precision with
   | Some f => f < 0 \/ 100 < f
   | None => True
   end) /\
  (exists x, generateFloats c s n None = Normal x).
Proof.
  split.
  - unfold generateFloats.
    destruct (to_integer precision) as [f|] eqn:Hf.
    + destruct (Z_lt_le_dec f 0) as [Hneg|Hpos];
        [|destruct (Z_lt_le_dec 100 f) as [Hbig|Hsmall]].
      * unfold toFixed. rewrite Hf.
        replace (f <? 0) with true by (symmetry; apply Z.ltb_lt; lia).
        cbn [orb bind]. split; [intros _; left; exact Hneg | reflexivity].
      * unfold toFixed. rewrite Hf.
        replace (100 <? f) with true by (symmetry; apply Z.ltb_lt; lia).
        rewrite orb_true_r. cbn [bind].
        split; [intros _; right; exact Hbig | reflexivity].
      * destruct (toFixed_normal
                    (parseFloat ("0." ++ join (byteGenerator c s n) ""))
                    precision f Hf (conj Hpos Hsmall)) as [str ->].
        cbn [bind]. split; [discriminate | lia].
    + unfold toFixed. rewrite Hf. cbn [bind]. split; auto.
  - unfold generateFloats. cbv beta iota zeta.
    destruct (toFixed_normal
                (parseFloat ("0." ++ join (byteGenerator c s n) ""))
                (of_Z 2) 2 (to_integer_of_Z 2) ltac:(lia)) as [str ->].
    cbn [bind]. eauto.
Qed.

Lemma generateFloats_RangeError_witness :
  generateFloats "a" "b" (of_Z 0) (Some (of_Z (-1))) = Throw RangeError.
Proof.
  apply (proj1 (generateFloats_RangeError "a" "b" (of_Z 0) (of_Z (-1)))).
  rewrite to_integer_of_Z. left. lia.
Defined.

(** ** The weighted selector: what it can return *)

(** The float drawn at precision 10 is a Number from 0 to 1. *)
Lemma draw_unit (c s : string) (n : number) :
  exists v,
    generateFloats c s n (Some (of_Z 10)) = Normal (Fin v) /\ 0 <= v <= U.
Proof.
  unfold generateFloats.
  destruct (raw_float_unit (byteGenerator c s n) (byteGenerator_range c s n))
    as (u & -> & Hu).
  destruct (toFixed_unit u (of_Z 10) 10 Hu (to_integer_of_Z 10) ltac:(lia))
    as (str & v & -> & Hv & Hvr & _).
  cbn [bind]. exists v. rewrite Hv. split; [reflexivity|exact Hvr].
Qed.

(** [selectRandomObject] is its loop, entered with that draw and the
    weights divided by their sum. *)
Lemma selectRandomObject_loop
  (c s : string) (n : number) (options : list object) :
  exists v,
    generateFloats c s n (Some (of_Z 10)) = Normal (Fin v) /\
    0 <= v <= U /\
    selectRandomObject c s n options
    = Normal (select_loop (Fin v) options (Spec.normalized options)
                0 (of_Z 0)).
Proof.
  destruct (draw_unit c s n) as (v & Hd & Hv).
  exists v. split; [exact Hd|]. split; [exact Hv|].
  unfold selectRandomObject. rewrite Hd. cbn [bind].
  rewrite fold_left_add_map. reflexivity.
Qed.

(** What the loop returns is an element of [objects], at the position
    where the loop was entered or later. *)
Lemma select_loop_member (r : number) (objs : list object) :
  forall (norm : list number) (i : nat) (idx : number) (o : object),
    select_loop r objs norm i idx = Some o ->
    exists j, (i <= j)%nat /\ nth_error objs j = Some o.
Proof.
  induction norm as [|p norm IH]; intros i idx o H; cbn [select_loop] in H.
  - discriminate H.
  - destruct (lt r (add idx p)).
    + exists i. split; [lia|exact H].
    + apply IH in H. destruct H as (j & Hj & Hn).
      exists j. split; [lia|exact Hn].
Qed.

(** X11: [selectRandomObject] returns one of the objects it was given,
    or [null]: never anything else, and never an error. *)
Theorem selectRandomObject_member
  (c s : string) (n : number) (options : list object) :
  exists r,
    selectRandomObject c s n options = Normal r /\
    match r with
    | Some o => In o options
    | None => True
    end.
Proof.
  destruct (selectRandomObject_loop c s n options) as (v & _ & _ & ->).
  eexists. split; [reflexivity|].
  destruct (select_loop (Fin v) options (Spec.normalized options) 0 (of_Z 0))
    as [o|] eqn:E; [|exact I].
  apply select_loop_member in E. destruct E as (j & _ & Hj).
  apply nth_error_In with j. exact Hj.
Qed.

Lemma fold_add_NaN (l : list number) : fold_left add l NaN = NaN.
Proof. induction l as [|p l IH]; [reflexivity|exact IH]. Qed.

Lemma fold_add_In_NaN (l : list number) :
  In NaN l -> forall z, fold_left add l z = NaN.
Proof.
  induction l as [|p l IH]; intros H z; [destruct H|].
  cbn [fold_left]. destruct H as [-> | H].
  - rewrite add_NaN_r. apply fold_add_NaN.
  - apply IH, H.
Qed.

Lemma div_NaN_r (x : number) : div x NaN = NaN.
Proof. destruct x; reflexivity. Qed.

(** X12: one weight that is [NaN] (what a missing [probability] becomes
    in the sum) spoils the whole selection: the total is [NaN], so is every
    normalized weight, no comparison holds, and the result is [null]
    whatever the other weights and the draw. *)
Theorem selectRandomObject_NaN_weight
  (c s : string) (n : number) (options : list object) (o : object) :
  In o options -> probability o = NaN ->
  selectRandomObject c s n options = Normal None.
Proof.
  intros Hin Hp.
  destruct (selectRandomObject_loop c s n options) as (v & _ & _ & ->).
  f_equal. apply select_loop_NaN.
  unfold Spec.normalized, Spec.total.
  rewrite fold_add_In_NaN
    by (rewrite <- Hp; apply in_map; exact Hin).
  apply Forall_forall. intros p Hq. apply in_map_iff in Hq.
  destruct Hq as (o' & <- & _). apply div_NaN_r.
Qed.

Lemma selectRandomObject_NaN_weight_witness :
  selectRandomObject "a" "b" (of_Z 0)
    [mkObject "x" (of_Z 1); mkObject "y" NaN] = Normal None.
Proof.
  apply (selectRandomObject_NaN_weight "a" "b" (of_Z 0)
           [mkObject "x" (of_Z 1); mkObject "y" NaN] (mkObject "y" NaN)).
  - right. left. reflexivity.
  - reflexivity.
Defined.

(** Dividing numerator and denominator by a common factor leaves the
    rounded quotient as it is. *)
Lemma round_pos_scale (b m : Z) :
  0 < b -> round_pos (b * m) b = round_pos m 1.
Proof.
  intros Hb. unfold round_pos.
  replace (b * m / b) with m by (rewrite Z.mul_comm, Z.div_mul; lia).
  rewrite Z.div_1_r.
  set (P := 2 ^ Z.max 0 (Z.log2 m - 52)).
  assert (HP : 0 < P) by (apply Z.pow_pos_nonneg; lia).
  rewrite !rne_div_mod. rewrite Z.mul_1_l.
  rewrite Z.mul_mod_distr_l by lia.
  rewrite Z.div_mul_cancel_l by lia.
  replace (2 * (b * (m mod P))) with (b * (2 * (m mod P))) by ring.
  rewrite <- Zmult_compare_compat_l by lia. reflexivity.
Qed.

Lemma is_number_round (w : Z) :
  is_number (Fin w) = true -> round_ratio w 1 = Fin w.
Proof.
  unfold is_number, is_fin.
  destruct (round_ratio w 1) as [| |x]; try discriminate.
  intros H. apply Z.eqb_eq in H. subst x. reflexivity.
Qed.

Lemma add_zero_l (w : Z) :
  is_number (Fin w) = true -> add (of_Z 0) (Fin w) = Fin w.
Proof. intros H. unfold add, of_Z. apply is_number_round, H. Qed.

(** A finite weight other than 0, divided by itself, is 1. *)
Lemma div_self (w : Z) : w <> 0 -> div (Fin w) (Fin w) = of_Z 1.
Proof.
  intros Hw. pose proof U_pos as HU. unfold div.
  replace (w =? 0) with false by (symmetry; apply Z.eqb_neq; exact Hw).
  replace (w * U * Z.sgn w) with (Z.abs w * U)
    by (destruct (Z_lt_le_dec w 0);
        [rewrite Z.sgn_neg, Z.abs_neq by lia
        |rewrite Z.sgn_pos, Z.abs_eq by lia]; ring).
  unfold round_ratio.
  replace (Z.abs w * U <? 0) with false by (symmetry; apply Z.ltb_ge; nia).
  rewrite round_pos_scale by lia.
  change U with (1 * U) at 1. apply round_pos_of_Z.
  split; [lia|]. apply Z.leb_le. reflexivity.
Qed.

(** Divided by its double, it is a half. *)
Lemma div_double (w : Z) : w <> 0 -> div (Fin w) (Fin (w + w)) = half.
Proof.
  intros Hw. pose proof U_pos as HU. unfold div.
  replace (w + w =? 0) with false by (symmetry; apply Z.eqb_neq; lia).
  replace (w * U * Z.sgn (w + w)) with (Z.abs (w + w) * 2 ^ 1073).
  - unfold round_ratio.
    replace (Z.abs (w + w) * 2 ^ 1073 <? 0) with false
      by (symmetry; apply Z.ltb_ge;
          apply Z.mul_nonneg_nonneg; [lia|apply Z.pow_nonneg; lia]).
    rewrite round_pos_scale by lia.
    vm_compute. reflexivity.
  - assert (E : U = 2 * 2 ^ 1073) by reflexivity.
    rewrite E. generalize (2 ^ 1073). intros h.
    destruct (Z_lt_le_dec w 0) as [Hneg|Hpos].
    + rewrite Z.sgn_neg, Z.abs_neq by lia. ring.
    + rewrite Z.sgn_pos, Z.abs_eq by lia. ring.
Qed.

(** X13: with a single option, whose weight is any finite Number other
    than 0, the normalized weight is exactly 1, and [selectRandomObject]
    returns the option unless the draw is exactly 1, when it returns
    [null]. *)
Theorem selectRandomObject_single
  (c s : string) (n : number) (o : object) (w : Z) :
  probability o = Fin w -> w <> 0 -> is_number (Fin w) = true ->
  exists v,
    generateFloats c s n (Some (of_Z 10)) = Normal (Fin v) /\
    0 <= v <= U /\
    selectRandomObject c s n [o]
    = Normal (if v <? U then Some o else None).
Proof.
  intros Hp Hw Hn.
  destruct (selectRandomObject_loop c s n [o]) as (v & Hd & Hv & ->).
  exists v. split; [exact Hd|]. split; [exact Hv|]. f_equal.
  unfold Spec.normalized, Spec.total. cbn [map fold_left].
  rewrite Hp, add_zero_l, div_self by assumption.
  cbn [select_loop nth_error].
  replace (add (of_Z 0) (of_Z 1)) with (of_Z 1) by (vm_compute; reflexivity).
  unfold lt, of_Z. rewrite Z.mul_1_l. reflexivity.
Qed.

Lemma selectRandomObject_single_witness :
  exists v,
    generateFloats "a" "b" (of_Z 0) (Some (of_Z 10)) = Normal (Fin v) /\
    0 <= v <= U /\
    selectRandomObject "a" "b" (of_Z 0) [mkObject "x" (of_Z 3)]
    = Normal (if v <? U then Some (mkObject "x" (of_Z 3)) else None).
Proof.
  apply (selectRandomObject_single "a" "b" (of_Z 0)
           (mkObject "x" (of_Z 3)) (3 * U)).
  - reflexivity.
  - vm_compute. discriminate.
  - vm_compute. reflexivity.
Defined.

(** X14: two options of the same finite weight (not 0, and whose double
    does not overflow) are a coin flip on the draw that [generateBool]
    uses, but not the same one: the selector returns the first option when
    the draw is strictly below 0.5, the second when it is from 0.5 to below
    1 and [null] at exactly 1, whereas [generateBool] is [true] up to and
    including 0.5. *)
Theorem selectRandomObject_even_odds
  (c s : string) (n : number) (o1 o2 : object) (w : Z) :
  probability o1 = Fin w -> probability o2 = Fin w -> w <> 0 ->
  is_number (Fin w) = true -> is_number (Fin (w + w)) = true ->
  exists draw,
    generateFloats c s n (Some (of_Z 10)) = Normal draw /\
    generateBool c s n = Normal (le draw half) /\
    selectRandomObject c s n [o1; o2]
    = Normal (if lt draw half then Some o1
              else if lt draw (of_Z 1) then Some o2 else None).
Proof.
  intros Hp1 Hp2 Hw Hn Hn2.
  destruct (selectRandomObject_loop c s n [o1; o2]) as (v & Hd & Hv & ->).
  exists (Fin v). split; [exact Hd|]. split.
  - unfold generateBool. rewrite Hd. cbn [bind].
    destruct (le (Fin v) half); reflexivity.
  - f_equal.
    unfold Spec.normalized, Spec.total. cbn [map fold_left].
    rewrite Hp1, Hp2, add_zero_l by assumption.
    replace (add (Fin w) (Fin w)) with (Fin (w + w))
      by (symmetry; apply is_number_round, Hn2).
    rewrite div_double by assumption.
    cbn [select_loop nth_error].
    replace (add (of_Z 0) half) with half by (vm_compute; reflexivity).
    replace (add half half) with (of_Z 1) by (vm_compute; reflexivity).
    reflexivity.
Qed.

Lemma selectRandomObject_even_odds_witness :
  exists draw,
    generateFloats "a" "b" (of_Z 0) (Some (of_Z 10)) = Normal draw /\
    generateBool "a" "b" (of_Z 0) = Normal (le draw half) /\
    selectRandomObject "a" "b" (of_Z 0)
      [mkObject "heads" half; mkObject "tails" half]
    = Normal (if lt draw half then Some (mkObject "heads" half)
              else if lt draw (of_Z 1) then Some (mkObject "tails" half)
              else None).
Proof.
  apply (selectRandomObject_even_odds "a" "b" (of_Z 0)
           (mkObject "heads" half) (mkObject "tails" half) (2 ^ 1073)).
  - reflexivity.
  - reflexivity.
  - vm_compute. discriminate.
  - vm_compute. reflexivity.
  - vm_compute. reflexivity.
Defined.

(** 0 divided by the total is 0, or [NaN] when the total is 0 or
    [NaN]. *)
Lemma div_zero_l (t : number) :
  div (of_Z 0) t = NaN \/ div (of_Z 0) t = Fin 0.
Proof.
  destruct t as [|sg|b]; [left; reflexivity | right; reflexivity |].
  unfold div, of_Z. rewrite !Z.mul_0_l.
  destruct (Z.eqb_spec b 0) as [->|Hb]; [left; reflexivity|right].
  unfold round_ratio. change (0 <? 0) with false.
  unfold round_pos. rewrite Z.div_0_l by lia.
  change (Z.max 0 (Z.log2 0 - 52)) with 0. change (2 ^ 0) with 1.
  rewrite rne_exact by (try apply Z.mod_0_l; lia).
  rewrite Z.div_0_l by lia. reflexivity.
Qed.

(** X15: an option of weight 0 at the head of the list is never the one
    selected, whatever the other options and their weights: the result is
    [null] or comes from the rest of the list. *)
Theorem selectRandomObject_zero_weight_first
  (c s : string) (n : number) (o : object) (rest : list object) :
  probability o = of_Z 0 ->
  exists r,
    selectRandomObject c s n (o :: rest) = Normal r /\
    match r with
    | Some x => In x rest
    | None => True
    end.
Proof.
  intros Hp.
  destruct (selectRandomObject_loop c s n (o :: rest)) as (v & _ & Hv & ->).
  eexists. split; [reflexivity|].
  unfold Spec.normalized. cbn [map select_loop]. rewrite Hp.
  assert (Hlt : lt (Fin v)
                  (add (of_Z 0) (div (of_Z 0) (Spec.total (o :: rest))))
                = false).
  { destruct (div_zero_l (Spec.total (o :: rest))) as [-> | ->].
    - reflexivity.
    - replace (add (of_Z 0) (Fin 0)) with (Fin 0) by (vm_compute; reflexivity).
      apply Z.ltb_ge. lia. }
  rewrite Hlt.
  match goal with
  | |- match ?e with _ => _ end => destruct e as [x|] eqn:E; [|exact I]
  end.
  apply select_loop_member in E. destruct E as (j & Hj & Hn).
  destruct j as [|j]; [lia|]. cbn [nth_error] in Hn.
  apply nth_error_In with j. exact Hn.
Qed.

Lemma selectRandomObject_zero_weight_first_witness :
  exists r,
    selectRandomObject "a" "b" (of_Z 0)
      [mkObject "never" (of_Z 0); mkObject "always" (of_Z 1)] = Normal r /\
    match r with
    | Some x => In x [mkObject "always" (of_Z 1)]
    | None => True
    end.
Proof.
  apply (selectRandomObject_zero_weight_first "a" "b" (of_Z 0)
           (mkObject "never" (of_Z 0)) [mkObject "always" (of_Z 1)]).
  reflexivity.
Defined.

(** ** The boolean projector on the float before rounding *)

(** A value of at most [2^e] is rounded to a Number of at most [2^e]. *)
Lemma round_pos_le_pow2 (a b e : Z) :
  0 < b -> 0 <= e <= 1074 -> 0 <= a <= b * 2 ^ e ->
  exists u, round_pos a b = Fin u /\ 0 <= u <= 2 ^ e.
Proof.
  intros Hb He [Ha Hae]. unfold round_pos.
  assert (Hpe : 0 < 2 ^ e) by (apply Z.pow_pos_nonneg; lia).
  assert (Hq : 0 <= a / b <= 2 ^ e).
  { split; [apply Z.div_pos; lia|apply Z.div_le_upper_bound; lia]. }
  assert (Hl : Z.log2 (a / b) <= e).
  { apply Z.le_trans with (Z.log2 (2 ^ e));
      [apply Z.log2_le_mono; lia | rewrite Z.log2_pow2; lia]. }
  set (s := Z.max 0 (Z.log2 (a / b) - 52)).
  assert (Hs : 0 <= s <= e) by lia.
  assert (Hps : 0 < 2 ^ s) by (apply Z.pow_pos_nonneg; lia).
  assert (Hes : 2 ^ e = 2 ^ (e - s) * 2 ^ s).
  { rewrite <- Z.pow_add_r by lia. f_equal. lia. }
  assert (HN : 0 < 2 ^ (e - s)) by (apply Z.pow_pos_nonneg; lia).
  assert (Hm1 : rne a (b * 2 ^ s) <= 2 ^ (e - s)).
  { apply rne_le_int; [nia|]. split; [lia|]. rewrite Hes in Hae. lia. }
  assert (Hm0 : 0 <= rne a (b * 2 ^ s)).
  { pose proof (rne_bounds a (b * 2 ^ s)) as [Hr _].
    assert (0 <= a / (b * 2 ^ s)) by (apply Z.div_pos; nia). lia. }
  set (m := rne a (b * 2 ^ s)) in *.
  assert (Hu : 0 <= m * 2 ^ s <= 2 ^ e) by (rewrite Hes; nia).
  replace (m * 2 ^ s <? HUGE) with true.
  - exists (m * 2 ^ s). split; [reflexivity|exact Hu].
  - symmetry. apply Z.ltb_lt. rewrite HUGE_eq.
    assert (2 ^ e <= U) by (unfold U; apply Z.pow_le_mono_r; lia).
    assert (1 < 2 ^ 1024) by reflexivity. pose proof U_pos. nia.
Qed.

(** Rounding loses less than one part in [2^52] of the integer part of
    the quotient. *)
Lemma round_pos_floor (a b u : Z) :
  0 < b -> 0 <= a -> round_pos a b = Fin u ->
  a / b * (2 ^ 52 - 1) <= u * 2 ^ 52.
Proof.
  intros Hb Ha. unfold round_pos.
  assert (Hq : 0 <= a / b) by (apply Z.div_pos; lia).
  set (q := a / b) in *.
  set (s := Z.max 0 (Z.log2 q - 52)).
  assert (Hs : 0 <= s) by lia.
  assert (HP : 0 < 2 ^ s) by (apply Z.pow_pos_nonneg; lia).
  assert (HPq : 2 ^ s = 1 \/ 2 ^ s * 2 ^ 52 <= q).
  { destruct (Z_le_gt_dec (Z.log2 q - 52) 0) as [Hle|Hgt].
    - left. unfold s. rewrite Z.max_l by lia. reflexivity.
    - right. unfold s. rewrite Z.max_r by lia.
      rewrite <- Z.pow_add_r by lia.
      replace (Z.log2 q - 52 + 52) with (Z.log2 q) by lia.
      apply Z.log2_spec.
      destruct (Z_le_gt_dec q 0) as [Hq0|Hq1]; [|lia].
      rewrite (Z.log2_nonpos q Hq0) in Hgt. lia. }
  pose proof (rne_bounds a (b * 2 ^ s)) as [Hr _].
  rewrite <- Z.div_div in Hr by lia. fold q in Hr.
  pose proof (Z.div_mod q (2 ^ s) ltac:(lia)) as Hdm.
  pose proof (Z.mod_pos_bound q (2 ^ s) HP) as Hm.
  set (m := rne a (b * 2 ^ s)) in *.
  set (P := 2 ^ s) in *. clearbody P m.
  destruct (m * P <? HUGE); [|discriminate].
  intros E. injection E as <-.
  assert (H52 : 0 < 2 ^ 52) by reflexivity.
  set (c := 2 ^ 52) in *. clearbody c.
  assert (Hmp : q / P * P <= m * P) by nia.
  nia.
Qed.

(** The float read from the bytes, as a rounded quotient. *)
Lemma raw_float_ratio (bytes : list Z) :
  Forall (fun b => 0 <= b < 256) bytes ->
  parseFloat ("0." ++ join bytes "")
  = round_pos (Spec.dec_number (join bytes "") 0 * U)
              (10 ^ strlen (join bytes "")).
Proof.
  intros Hb. pose proof (join_digits bytes Hb) as Hd.
  change ("0." ++ join bytes "") with ("0" ++ String "." (join bytes "")).
  rewrite parseFloat_fixed_point by (try discriminate; try reflexivity; exact Hd).
  reflexivity.
Qed.

(** The comparison of [generateBool], on the float before [toFixed]. *)
Lemma le_half_threshold (u : Z) (str : string) :
  0 <= u <= U ->
  toFixed (Fin u) (of_Z 10) = Normal str ->
  le (parseFloat str) half = (2 * 10 ^ 10 * u <? (10 ^ 10 + 1) * U).
Proof.
  intros Hu Hstr. pose proof U_pos as HU.
  destruct (toFixed_grid u (of_Z 10) 10 Hu (to_integer_of_Z 10) ltac:(lia))
    as (Hk & str' & Hstr' & Hp).
  rewrite Hstr in Hstr'. injection Hstr' as <-. rewrite Hp. clear Hp Hstr.
  set (k := (2 * u * 10 ^ 10 + U) / (2 * U)) in *.
  assert (HT : 0 < 10 ^ 10) by reflexivity.
  assert (HU100 : 2 ^ 100 <= U) by (unfold U; apply Z.pow_le_mono_r; lia).
  assert (Hh : U = 2 * 2 ^ 1073) by reflexivity.
  destruct (Z_le_gt_dec k (5 * 10 ^ 9)) as [Hle|Hgt].
  - (* at most ten digits of 0.5: the Number is at most 0.5 *)
    replace (2 * 10 ^ 10 * u <? (10 ^ 10 + 1) * U) with true.
    + destruct (round_pos_le_pow2 (k * U) (10 ^ 10) 1073 HT ltac:(lia))
        as (v & -> & Hv).
      * rewrite Hh. generalize dependent (2 ^ 1073). intros h. nia.
      * unfold le, half. apply Z.leb_le. lia.
    + symmetry. apply Z.ltb_lt.
      assert (Hlt : k < 5 * 10 ^ 9 + 1) by lia.
      unfold k in Hlt.
      assert (2 * u * 10 ^ 10 + U < (5 * 10 ^ 9 + 1) * (2 * U)); [|lia].
      destruct (Z_lt_le_dec (2 * u * 10 ^ 10 + U) ((5 * 10 ^ 9 + 1) * (2 * U)))
        as [|Hge]; [assumption|].
      assert (5 * 10 ^ 9 + 1 <= (2 * u * 10 ^ 10 + U) / (2 * U))
        by (apply Z.div_le_lower_bound; lia).
      lia.
  - (* above: the Number is above 0.5 *)
    replace (2 * 10 ^ 10 * u <? (10 ^ 10 + 1) * U) with false.
    + destruct (round_pos_unit (k * U) (10 ^ 10) HT ltac:(nia))
        as (v & Hv & Hvr).
      pose proof (round_pos_floor (k * U) (10 ^ 10) v HT ltac:(nia) Hv) as Hf.
      rewrite Hv. unfold le, half. apply Z.leb_gt.
      pose proof (Z.mul_succ_div_gt (k * U) (10 ^ 10) HT) as Hd.
      set (q := k * U / 10 ^ 10) in *. clearbody q.
      assert (HkU : (5 * 10 ^ 9 + 1) * U <= k * U) by nia.
      set (z := k * U) in *. clearbody z.
      assert (H52 : 2 ^ 52 = 4503599627370496) by reflexivity.
      rewrite H52 in Hf. rewrite Hh in *.
      generalize dependent (2 ^ 1073). intros h. intros.
      assert (2 ^ 99 = 633825300114114700748351602688) by reflexivity.
      lia.
    + symmetry. apply Z.ltb_ge.
      assert (Hge : 5 * 10 ^ 9 + 1 <= k) by lia.
      unfold k in Hge.
      destruct (Z_lt_le_dec (2 * u * 10 ^ 10 + U) ((5 * 10 ^ 9 + 1) * (2 * U)))
        as [Hlt|]; [|lia].
      assert ((2 * u * 10 ^ 10 + U) / (2 * U) < 5 * 10 ^ 9 + 1)
        by (apply Z.div_lt_upper_bound; lia).
      lia.
Qed.

Lemma generateBool_raw (c s : string) (n : number) (u : Z) :
  parseFloat ("0." ++ join (byteGenerator c s n) "") = Fin u ->
  0 <= u <= U ->
  generateBool c s n = Normal (2 * 10 ^ 10 * u <? (10 ^ 10 + 1) * U).
Proof.
  intros Hraw Hu.
  unfold generateBool, generateFloats. rewrite Hraw.
  destruct (toFixed_normal (Fin u) (of_Z 10) 10 (to_integer_of_Z 10)
              ltac:(lia)) as [str Hstr].
  rewrite Hstr. cbn [bind].
  rewrite (le_half_threshold u str Hu Hstr).
  destruct (2 * 10 ^ 10 * u <? (10 ^ 10 + 1) * U); reflexivity.
Qed.

(** X16: [generateBool] decides on the float read from the bytes, before
    any rounding: it is [true] exactly when that float is below
    0.50000000005.  Rounding to ten digits and reading the digits back as a
    Number do not move the comparison with 0.5. *)
Theorem generateBool_threshold (c s : string) (n : number) :
  exists u,
    parseFloat ("0." ++ join (byteGenerator c s n) "") = Fin u /\
    0 <= u <= U /\
    generateBool c s n = Normal (2 * 10 ^ 10 * u <? (10 ^ 10 + 1) * U).
Proof.
  destruct (raw_float_unit (byteGenerator c s n) (byteGenerator_range c s n))
    as (u & Hraw & Hu).
  exists u. split; [exact Hraw|]. split; [exact Hu|].
  apply generateBool_raw; assumption.
Qed.

(** ** The first byte and the boolean *)

Lemma join_cons (b : Z) (t : list Z) :
  join (b :: t) "" = decimal b ++ join t "".
Proof.
  cbn [join]. destruct t; [rewrite append_empty_r|]; reflexivity.
Qed.

Lemma dec_number_lower (s : string) (acc : Z) :
  0 <= acc -> acc * 10 ^ strlen s <= Spec.dec_number s acc.
Proof.
  revert acc. unfold strlen.
  induction s as [|c r IH]; intros acc Hacc; cbn [Spec.dec_number String.length].
  - rewrite Z.pow_0_r. lia.
  - assert (Hc : 0 <= Spec.dec_digit c < 10).
    { unfold Spec.dec_digit. destruct (digit_of 10 c) as [d|] eqn:E; [|lia].
      apply (digit_of_range 10 c d E). }
    specialize (IH (acc * 10 + Spec.dec_digit c) ltac:(lia)).
    rewrite Nat2Z.inj_succ, Z.pow_succ_r by lia.
    assert (0 < 10 ^ Z.of_nat (String.length r)) by (apply Z.pow_pos_nonneg; lia).
    nia.
Qed.

(** The number of digits of a byte. *)
Lemma decimal_length (b : Z) :
  0 <= b < 1000 ->
  strlen (decimal b) = if b <? 10 then 1 else if b <? 100 then 2 else 3.
Proof.
  intros Hb. unfold strlen.
  destruct (Z.ltb_spec b 10) as [H1|H1].
  - rewrite decimal_small by lia. reflexivity.
  - rewrite decimal_step by lia. rewrite length_append.
    assert (Hq : 1 <= b / 10 < 100)
      by (split; [apply Z.div_le_lower_bound | apply Z.div_lt_upper_bound]; lia).
    destruct (Z.ltb_spec b 100) as [H2|H2].
    + rewrite decimal_small; [reflexivity|].
      split; [lia|apply Z.div_lt_upper_bound; lia].
    + rewrite decimal_step
        by (apply Z.div_le_lower_bound; lia).
      rewrite length_append, decimal_small; [reflexivity|].
      split; [apply Z.div_pos; lia|].
      apply Z.div_lt_upper_bound; [lia|].
      apply Z.div_lt_upper_bound; lia.
Qed.

(** A quotient of at least 0.51, rounded down by at most one unit and
    then by at most one part in [2^52], is still above 0.50000000005. *)
Lemma above_half (X N D q u : Z) :
  2 ^ 100 <= X -> 0 < D -> 51 * D <= 100 * N ->
  N * X < D * Z.succ q -> q * (2 ^ 52 - 1) <= u * 2 ^ 52 ->
  (10 ^ 10 + 1) * X <= 2 * 10 ^ 10 * u.
Proof.
  intros HX HD Hr Hq Hf.
  assert (H51 : 51 * X < 100 * (q + 1)).
  { apply Z.mul_lt_mono_pos_l with D; [exact HD|]. nia. }
  assert (H100 : 2 ^ 100 = 1267650600228229401496703205376) by reflexivity.
  assert (H52 : 2 ^ 52 = 4503599627370496) by reflexivity.
  assert (HT : 10 ^ 10 = 10000000000) by reflexivity.
  rewrite H100 in HX. rewrite H52 in Hf. rewrite HT. lia.
Qed.

(** The boolean, from where the digits of the bytes put the float. *)
Lemma generateBool_by_digits (c s : string) (n : number) :
  let digits := join (byteGenerator c s n) "" in
  let N := Spec.dec_number digits 0 in
  let D := 10 ^ strlen digits in
  (2 * N <= D -> generateBool c s n = Normal true) /\
  (51 * D <= 100 * N -> generateBool c s n = Normal false).
Proof.
  cbv zeta. pose proof U_pos as HU.
  pose proof (raw_float_ratio (byteGenerator c s n) (byteGenerator_range c s n))
    as Hraw.
  destruct (raw_float_unit (byteGenerator c s n) (byteGenerator_range c s n))
    as (u & Hu & Hur).
  rewrite (generateBool_raw c s n u Hu Hur).
  rewrite Hu in Hraw. clear Hu.
  set (digits := join (byteGenerator c s n) "") in *.
  assert (HD : 0 < 10 ^ strlen digits)
    by (apply Z.pow_pos_nonneg; unfold strlen; lia).
  assert (HN : 0 <= Spec.dec_number digits 0)
    by (apply (dec_number_range digits 0); lia).
  set (N := Spec.dec_number digits 0) in *.
  set (D := 10 ^ strlen digits) in *.
  clearbody digits N D.
  assert (Hh : U = 2 * 2 ^ 1073) by reflexivity.
  assert (HU100 : 2 ^ 100 <= U) by (unfold U; apply Z.pow_le_mono_r; lia).
  assert (HT : 10 ^ 10 = 10000000000) by reflexivity.
  split; intros H; do 2 f_equal.
  - apply Z.ltb_lt.
    destruct (round_pos_le_pow2 (N * U) D 1073 HD ltac:(lia)) as (v & Hv & Hvr).
    + assert (Hp : 0 < 2 ^ 1073) by (apply Z.pow_pos_nonneg; lia).
      rewrite Hh. revert Hp. generalize (2 ^ 1073). intros h Hp. nia.
    + rewrite Hv in Hraw. injection Hraw as <-.
      rewrite HT. rewrite Hh in *. generalize dependent (2 ^ 1073).
      intros h. intros. lia.
  - apply Z.ltb_ge.
    apply (above_half U N D (N * U / D) u HU100 HD H).
    + apply Z.mul_succ_div_gt, HD.
    + apply round_pos_floor; [exact HD | | symmetry; exact Hraw].
      apply Z.mul_nonneg_nonneg; lia.
Qed.

(** Where the first byte puts the digits: with [T] the power of ten of
    the digits that follow it, the digits of the bytes read as a number are
    from [b0 * T] to below [(b0 + 1) * T], out of 10, 100 or 1000 times
    [T]. *)
Lemma first_byte_digits (b0 : Z) (rest : list Z) :
  0 <= b0 < 256 ->
  exists T,
    0 < T /\
    10 ^ strlen (join (b0 :: rest) "")
    = (if b0 <? 10 then 10 else if b0 <? 100 then 100 else 1000) * T /\
    b0 * T <= Spec.dec_number (join (b0 :: rest) "") 0 < (b0 + 1) * T.
Proof.
  intros Hb.
  exists (10 ^ strlen (join rest "")).
  split; [apply Z.pow_pos_nonneg; unfold strlen; lia|].
  rewrite join_cons, dec_number_append.
  destruct (decimal_digits b0 ltac:(lia)) as (_ & -> & _).
  split.
  - unfold strlen at 1. rewrite length_append, Nat2Z.inj_add.
    rewrite Z.pow_add_r by lia. f_equal.
    fold (strlen (decimal b0)). rewrite decimal_length by lia.
    destruct (b0 <? 10); [reflexivity|]. destruct (b0 <? 100); reflexivity.
  - split.
    + apply dec_number_lower. lia.
    + apply dec_number_range. lia.
Qed.

(** The digest of the seeds ["a"], ["b"] and the nonce 0 starts with the
    byte [bc], 188. *)
Lemma first_byte_a_b_0 :
  nth_error (byteGenerator "a" "b" (of_Z 0)) 0 = Some 188.
Proof. vm_compute. reflexivity. Qed.

(** With the nonce 17 it starts with the byte [61], 97. *)
Lemma first_byte_a_b_17 :
  nth_error (byteGenerator "a" "b" (of_Z 17)) 0 = Some 97.
Proof. vm_compute. reflexivity. Qed.

(** X17: the first of the 32 bytes settles [generateBool] for all but two
    of its 256 values, because the bytes are written one after another in
    decimal: it is [true] when the first byte is from 0 to 4, from 10 to 49
    or at least 100 (201 values), and [false] when it is from 6 to 9 or from
    51 to 99 (53 values).  Only after 5 and 50 do the other bytes count. *)
Theorem generateBool_first_byte (c s : string) (n : number) (b0 : Z) :
  nth_error (byteGenerator c s n) 0 = Some b0 ->
  ((b0 <= 4 \/ 10 <= b0 <= 49 \/ 100 <= b0) ->
   generateBool c s n = Normal true) /\
  ((6 <= b0 <= 9 \/ 51 <= b0 <= 99) ->
   generateBool c s n = Normal false).
Proof.
  intros H0.
  pose proof (byteGenerator_range c s n) as Hr.
  destruct (generateBool_by_digits c s n) as [Ht Hf].
  destruct (byteGenerator c s n) as [|b rest]; [discriminate H0|].
  injection H0 as ->.
  pose proof (Forall_inv Hr) as Hb. cbv beta in Hb.
  destruct (first_byte_digits b0 rest Hb) as (T & HT & HD & HN).
  rewrite HD in Ht, Hf.
  set (N := Spec.dec_number (join (b0 :: rest) "") 0) in *. clearbody N.
  split; intros Hc.
  - apply Ht.
    destruct (Z.ltb_spec b0 10); [nia|].
    destruct (Z.ltb_spec b0 100); nia.
  - apply Hf.
    destruct (Z.ltb_spec b0 10); [nia|].
    destruct (Z.ltb_spec b0 100); [nia | lia].
Qed.

Lemma generateBool_first_byte_witness :
  generateBool "a" "b" (of_Z 0) = Normal true /\
  generateBool "a" "b" (of_Z 17) = Normal false.
Proof.
  split.
  - apply (generateBool_first_byte "a" "b" (of_Z 0) 188 first_byte_a_b_0).
    right. right. lia.
  - apply (generateBool_first_byte "a" "b" (of_Z 17) 97 first_byte_a_b_17).
    right. lia.
Defined.

(** ** The first byte and the float *)

(** Rounding adds less than one unit and one part in [2^52] to the
    quotient. *)
Lemma round_pos_ceil (a b u : Z) :
  0 < b -> 0 <= a -> round_pos a b = Fin u ->
  u * 2 ^ 52 <= (a / b + 1) * (2 ^ 52 + 1).
Proof.
  intros Hb Ha. unfold round_pos.
  assert (Hq : 0 <= a / b) by (apply Z.div_pos; lia).
  set (q := a / b) in *.
  set (s := Z.max 0 (Z.log2 q - 52)).
  assert (Hs : 0 <= s) by lia.
  assert (HP : 0 < 2 ^ s) by (apply Z.pow_pos_nonneg; lia).
  assert (HPq : 2 ^ s = 1 \/ 2 ^ s * 2 ^ 52 <= q).
  { destruct (Z_le_gt_dec (Z.log2 q - 52) 0) as [Hle|Hgt].
    - left. unfold s. rewrite Z.max_l by lia. reflexivity.
    - right. unfold s. rewrite Z.max_r by lia.
      rewrite <- Z.pow_add_r by lia.
      replace (Z.log2 q - 52 + 52) with (Z.log2 q) by lia.
      apply Z.log2_spec.
      destruct (Z_le_gt_dec q 0) as [Hq0|Hq1]; [|lia].
      rewrite (Z.log2_nonpos q Hq0) in Hgt. lia. }
  pose proof (rne_bounds a (b * 2 ^ s)) as [_ Hr].
  rewrite <- Z.div_div in Hr by lia. fold q in Hr.
  pose proof (Z.div_mod q (2 ^ s) ltac:(lia)) as Hdm.
  pose proof (Z.mod_pos_bound q (2 ^ s) HP) as Hm.
  set (m := rne a (b * 2 ^ s)) in *.
  set (P := 2 ^ s) in *. clearbody P m.
  destruct (m * P <? HUGE); [|discriminate].
  intros E. injection E as <-.
  assert (H52 : 0 < 2 ^ 52) by reflexivity.
  set (c := 2 ^ 52) in *. clearbody c.
  assert (Hmp : m * P <= (q / P + 1) * P) by nia.
  nia.
Qed.

(** A quotient of at least 0.1 gives at least 10 hundredths, one below
    0.256 at most 26. *)
Lemma hundredths (X N D q u : Z) :
  2 ^ 100 <= X -> 0 < D -> 0 <= N -> 0 <= u ->
  D * q <= N * X -> N * X < D * Z.succ q ->
  q * (2 ^ 52 - 1) <= u * 2 ^ 52 -> u * 2 ^ 52 <= (q + 1) * (2 ^ 52 + 1) ->
  let k := (2 * u * 10 ^ 2 + X) / (2 * X) in
  (D <= 10 * N -> 10 <= k) /\ (1000 * N < 256 * D -> k <= 26).
Proof.
  intros HX HD HN Hu Hlo Hhi Hf Hc k.
  assert (H100 : 2 ^ 100 = 1267650600228229401496703205376) by reflexivity.
  assert (H52 : 2 ^ 52 = 4503599627370496) by reflexivity.
  rewrite H100 in HX. rewrite H52 in Hf, Hc.
  change (10 ^ 2) with 100 in k.
  split; intros H.
  - assert (H1 : X < 10 * (q + 1)).
    { apply Z.mul_lt_mono_pos_l with D; [exact HD|]. nia. }
    apply Z.div_le_lower_bound; lia.
  - assert (H1 : 1000 * q < 256 * X).
    { apply Z.mul_lt_mono_pos_l with D; [exact HD|]. nia. }
    assert (k < 27); [|lia].
    apply Z.div_lt_upper_bound; lia.
Qed.

(** The float at the default precision, from where the digits of the
    bytes put it. *)
Lemma default_float_by_digits (c s : string) (n : number) :
  let digits := join (byteGenerator c s n) "" in
  let N := Spec.dec_number digits 0 in
  let D := 10 ^ strlen digits in
  exists k,
    0 <= k <= 10 ^ 2 /\
    generateFloats c s n None = Normal (round_pos (k * U) (10 ^ 2)) /\
    (D <= 10 * N -> 10 <= k) /\ (1000 * N < 256 * D -> k <= 26).
Proof.
  cbv zeta. pose proof U_pos as HU.
  pose proof (raw_float_ratio (byteGenerator c s n) (byteGenerator_range c s n))
    as Hraw.
  destruct (raw_float_unit (byteGenerator c s n) (byteGenerator_range c s n))
    as (u & Hu & Hur).
  unfold generateFloats. cbv beta iota zeta.
  rewrite Hu in Hraw |- *.
  destruct (toFixed_grid u (of_Z 2) 2 Hur (to_integer_of_Z 2) ltac:(lia))
    as (Hk & str & -> & Hp).
  exists ((2 * u * 10 ^ 2 + U) / (2 * U)).
  split; [exact Hk|]. cbn [bind]. rewrite Hp. split; [reflexivity|].
  clear Hp Hk str.
  set (digits := join (byteGenerator c s n) "") in *.
  assert (HD : 0 < 10 ^ strlen digits)
    by (apply Z.pow_pos_nonneg; unfold strlen; lia).
  assert (HN : 0 <= Spec.dec_number digits 0)
    by (apply (dec_number_range digits 0); lia).
  set (N := Spec.dec_number digits 0) in *.
  set (D := 10 ^ strlen digits) in *.
  clearbody digits N D.
  assert (HU100 : 2 ^ 100 <= U) by (unfold U; apply Z.pow_le_mono_r; lia).
  assert (HNU : 0 <= N * U) by (apply Z.mul_nonneg_nonneg; lia).
  apply (hundredths U N D (N * U / D) u); try assumption; try lia.
  - apply Z.mul_div_le, HD.
  - apply Z.mul_succ_div_gt, HD.
  - apply round_pos_floor; [exact HD | exact HNU | symmetry; exact Hraw].
  - apply round_pos_ceil; [exact HD | exact HNU | symmetry; exact Hraw].
Qed.

(** X18: at the default precision the first byte confines the float.
    Unless the first byte is 0 the float is at least 0.1, and whenever the
    first byte is 100 or more (156 of its 256 values) the float is one of
    the seventeen values from 0.1 to 0.26. *)
Theorem generateFloats_first_byte (c s : string) (n : number) (b0 : Z) :
  nth_error (byteGenerator c s n) 0 = Some b0 ->
  exists k,
    0 <= k <= 10 ^ 2 /\
    generateFloats c s n None = Normal (round_pos (k * U) (10 ^ 2)) /\
    (1 <= b0 -> 10 <= k) /\ (100 <= b0 -> k <= 26).
Proof.
  intros H0.
  pose proof (byteGenerator_range c s n) as Hr.
  destruct (default_float_by_digits c s n) as (k & Hk & Hg & Hlo & Hhi).
  exists k. split; [exact Hk|]. split; [exact Hg|]. clear Hg.
  destruct (byteGenerator c s n) as [|b rest]; [discriminate H0|].
  injection H0 as ->.
  pose proof (Forall_inv Hr) as Hb. cbv beta in Hb.
  destruct (first_byte_digits b0 rest Hb) as (T & HT & HD & HN).
  rewrite HD in Hlo, Hhi.
  set (N := Spec.dec_number (join (b0 :: rest) "") 0) in *. clearbody N.
  split; intros Hc.
  - apply Hlo.
    destruct (Z.ltb_spec b0 10); [nia|].
    destruct (Z.ltb_spec b0 100); nia.
  - apply Hhi.
    destruct (Z.ltb_spec b0 10); [lia|].
    destruct (Z.ltb_spec b0 100); [lia | nia].
Qed.

Lemma generateFloats_first_byte_witness :
  exists k,
    0 <= k <= 10 ^ 2 /\
    generateFloats "a" "b" (of_Z 0) None = Normal (round_pos (k * U) (10 ^ 2)) /\
    (1 <= 188 -> 10 <= k) /\ (100 <= 188 -> k <= 26).
Proof.
  apply (generateFloats_first_byte "a" "b" (of_Z 0) 188 first_byte_a_b_0).
Defined.
